(** * argocd-attach-service: the generic finalizer controller

    A shallow embedding of [src/controller/main.go], [util.go] and
    [workqueue.go]: the remote object store and the secrets the
    capabilities manage are threaded as explicit state ([World]); every
    remote call consumes one entry of an injected-fault list, so that
    concurrent writers and transient API errors can be expressed; a ghost
    trace records every remote call with its outcome, and every call of a
    provision/cleanup capability. *)

From stdpp Require Import base gmap list strings pretty.
From Stdlib Require Import Ascii String ZArith Lia.

Open Scope Z_scope.

(** ** Errors *)

(** The classes of API errors the code distinguishes with [apierrors]. *)
Inductive ApiErr :=
| NotFound
| Conflict
| AlreadyExists
| OtherApiErr (msg : string).

Definition apiErrString (e : ApiErr) : string :=
  match e with
  | NotFound => "not found"
  | Conflict => "conflict"
  | AlreadyExists => "already exists"
  | OtherApiErr m => m
  end.

(** Go [error] values: an API error, an [fmt.Errorf("...: %w", e)] wrapping,
    or a plain message. *)
Inductive error :=
| ApiError (a : ApiErr)
| Wrapped (prefix : string) (inner : error)
| Plain (msg : string).

Fixpoint errorString (e : error) : string :=
  match e with
  | ApiError a => apiErrString a
  | Wrapped p i => p +:+ errorString i
  | Plain m => m
  end.

(** [apierrors.IsNotFound] and friends look through [%w] wrappers. *)
Fixpoint reasonOf (e : error) : option ApiErr :=
  match e with
  | ApiError a => Some a
  | Wrapped _ i => reasonOf i
  | Plain _ => None
  end.

Definition IsNotFound (e : error) : bool :=
  match reasonOf e with Some NotFound => true | _ => false end.
Definition IsConflict (e : error) : bool :=
  match reasonOf e with Some Conflict => true | _ => false end.
Definition IsAlreadyExists (e : error) : bool :=
  match reasonOf e with Some AlreadyExists => true | _ => false end.

(** ** Objects *)

Record Status := mkStatus {
  st_state : string;
  st_message : string;
  st_ready : bool;
  st_lastUpdated : Z
}.

(** The spec part of the managed kinds ([ArgoClusterSpec]). *)
Record Spec := mkSpec {
  spec_clusterName : string;
  spec_argoNamespace : string;
  spec_project : string
}.

(** An [unstructured.Unstructured] object of a managed kind.  The deletion
    timestamp is a [*metav1.Time]: [None] is nil, [Some 0] the zero time. *)
Record Obj := mkObj {
  o_name : string;
  o_namespace : string;
  o_generation : Z;
  o_deletionTimestamp : option Z;
  o_finalizers : list string;
  o_spec : Spec;
  o_status : option Status
}.

(** [metav1.Time.IsZero]: nil or the zero instant. *)
Definition IsZero (t : option Z) : bool :=
  match t with None => true | Some z => Z.eqb z 0 end.

Definition objKey (o : Obj) : string * string := (o_namespace o, o_name o).

Definition set_finalizers (fs : list string) (o : Obj) : Obj :=
  mkObj (o_name o) (o_namespace o) (o_generation o) (o_deletionTimestamp o)
        fs (o_spec o) (o_status o).

Definition set_status (st : Status) (o : Obj) : Obj :=
  mkObj (o_name o) (o_namespace o) (o_generation o) (o_deletionTimestamp o)
        (o_finalizers o) (o_spec o) (Some st).

(** ** The world: remote store, secrets, injected faults, clock, trace *)

Abbreviation SecretData := (gmap string string).
Abbreviation Secrets := (gmap (string * string) SecretData).

(** Remote calls a capability makes on other resources. *)
Inductive RCall :=
| RGetSecret (ns name : string)
| RApplySecret (ns name : string)
| RDeleteSecret (ns name : string).

(** Ghost trace events.  [res = None] is a successful call. *)
Inductive Event :=
| EvGet (k : string * string) (res : option ApiErr)
| EvPatchFinalizers (k : string * string) (fs : list string) (res : option ApiErr)
| EvApplyStatus (k : string * string) (st : Status) (res : option ApiErr)
| EvSleep (ms : Z)
| EvCleanup (k : string * string) (res : option error)
| EvProvision (k : string * string) (res : option error)
| EvRemote (c : RCall)
| EvLog (msg : string).

Record World := mkWorld {
  store : gmap (string * string) Obj;
  secrets : Secrets;
  inj : list (option ApiErr);
  now : Z;
  trace : list Event
}.

Definition set_store (s : gmap (string * string) Obj) (w : World) : World :=
  mkWorld s (secrets w) (inj w) (now w) (trace w).
Definition set_secrets (s : Secrets) (w : World) : World :=
  mkWorld (store w) s (inj w) (now w) (trace w).
Definition set_inj (l : list (option ApiErr)) (w : World) : World :=
  mkWorld (store w) (secrets w) l (now w) (trace w).
Definition set_now (t : Z) (w : World) : World :=
  mkWorld (store w) (secrets w) (inj w) t (trace w).
Definition emit (e : Event) (w : World) : World :=
  mkWorld (store w) (secrets w) (inj w) (now w) (trace w ++ [e]).

(** ** A state monad over the world *)

Definition M (A : Type) : Type := World -> A * World.

Definition ret {A} (a : A) : M A := fun w => (a, w).
Definition bind {A B} (m : M A) (k : A -> M B) : M B :=
  fun w => let '(a, w1) := m w in k a w1.

Notation "'let*' x ':=' m 'in' k" := (bind m (fun x => k))
  (at level 200, x name, m at level 100, k at level 200).

Definition log (e : Event) : M unit := fun w => (tt, emit e w).

(** A remote call first takes the next injected fault, if any. *)
Definition takeFault : M (option ApiErr) := fun w =>
  match inj w with
  | [] => (None, w)
  | f :: r => (f, set_inj r w)
  end.

(** [metav1.Now()]: read the clock, which then moves on. *)
Definition Now : M Z := fun w => (now w, set_now (now w + 1) w).

(** [client.Resource(gvr).Namespace(ns).Get(name)] *)
Definition apiGet (k : string * string) : M (Obj + ApiErr) :=
  let* f := takeFault in
  match f with
  | Some e => let* _ := log (EvGet k (Some e)) in ret (inr e)
  | None => fun w =>
      match store w !! k with
      | None => (inr NotFound, emit (EvGet k (Some NotFound)) w)
      | Some o => (inl o, emit (EvGet k None) w)
      end
  end.

(** A JSON merge patch of [metadata.finalizers]: the whole list is
    replaced; an object being deleted whose finalizers become empty is
    removed by the store. *)
Definition apiPatchFinalizers (k : string * string) (fs : list string)
  : M (option ApiErr) :=
  let* f := takeFault in
  match f with
  | Some e => let* _ := log (EvPatchFinalizers k fs (Some e)) in ret (Some e)
  | None => fun w =>
      match store w !! k with
      | None => (Some NotFound, emit (EvPatchFinalizers k fs (Some NotFound)) w)
      | Some o =>
          let o' := set_finalizers fs o in
          let s' := if negb (IsZero (o_deletionTimestamp o)) && bool_decide (fs = [])
                    then delete k (store w) else <[k := o']> (store w) in
          (None, emit (EvPatchFinalizers k fs None) (set_store s' w))
      end
  end.

(** Server-side apply of the status subresource. *)
Definition apiApplyStatus (k : string * string) (st : Status) : M (option ApiErr) :=
  let* f := takeFault in
  match f with
  | Some e => let* _ := log (EvApplyStatus k st (Some e)) in ret (Some e)
  | None => fun w =>
      match store w !! k with
      | None => (Some NotFound, emit (EvApplyStatus k st (Some NotFound)) w)
      | Some o => (None, emit (EvApplyStatus k st None)
                               (set_store (<[k := set_status st o]> (store w)) w))
      end
  end.

Definition sleep (ms : Z) : M unit := log (EvSleep ms).

(** ** util.go *)

(** [patchStatus]: at most [maxRetries] server-side applies of the status
    subresource, sleeping 100ms after each conflict-class error. *)
Definition maxRetries : nat := 5.

Fixpoint patchStatusLoop (obj : Obj) (statusData : Status) (i fuel : nat)
    (lastError : option error) : M (option error) :=
  match fuel with
  | O => ret (Some (Wrapped ("failed to apply status after " +:+
                               pretty (N.of_nat maxRetries) +:+ " attempts: ")
                            (default (Plain "%!w(<nil>)") lastError)))
  | S fuel' =>
      let* r := apiApplyStatus (objKey obj) statusData in
      match r with
      | None => ret None
      | Some e =>
          if IsNotFound (ApiError e) then ret None
          else if IsConflict (ApiError e) || IsAlreadyExists (ApiError e) then
            let* _ := sleep 100 in
            patchStatusLoop obj statusData (S i) fuel'
              (Some (Wrapped "status apply conflict encountered: " (ApiError e)))
          else ret (Some (Wrapped ("failed to apply status for " +:+ o_name obj +:+ "/" +:+
                                   o_namespace obj +:+ " after " +:+
                                   pretty (N.of_nat (S i)) +:+ " tries: ")
                                  (ApiError e)))
      end
  end.

Definition patchStatus (obj : Obj) (statusData : Status) : M (option error) :=
  patchStatusLoop obj statusData 0 maxRetries None.

(** [patchFinalizer]: replace the whole finalizer list. *)
Definition patchFinalizer (obj : Obj) (finalizerName : string) (finalizers : list string)
  : M (option error) :=
  let* r := apiPatchFinalizers (objKey obj) finalizers in
  match r with
  | None => ret None
  | Some e => ret (Some (Wrapped ("failed to patch resource " +:+ o_name obj +:+ "/" +:+
                                  o_namespace obj +:+ " with finalizer " +:+
                                  finalizerName +:+ ": ") (ApiError e)))
  end.

Definition containsFinalizer (obj : Obj) (finalizerName : string) : bool :=
  existsb (String.eqb finalizerName) (o_finalizers obj).

(** [removeString] drops every occurrence of [s]. *)
Definition removeString (slice : list string) (s : string) : list string :=
  List.filter (fun item => negb (String.eqb item s)) slice.

(** ** main.go: status maps and the controller *)

Definition updateGenericStatus (u : Obj) (success : bool) (reconcileErr : option error)
  : M Status :=
  let* t := Now in
  match reconcileErr with
  | Some e => ret (mkStatus "Failed" ("Reconciliation failed: " +:+ errorString e) false t)
  | None =>
      if success then ret (mkStatus "Ready" "Resource provisioned successfully." true t)
      else ret (mkStatus "Pending" "Initializing or waiting for finalizer to be confirmed."
                         false t)
  end.

(** A provision or cleanup capability acts on the secrets it manages and
    reports the remote calls it made. *)
Definition Provisioner : Type :=
  Obj -> list string -> Secrets -> option error * Secrets * list RCall.
Definition Cleaner : Type :=
  Obj -> Secrets -> option error * Secrets * list RCall.

Record Controller := mkController {
  finalizerName : string;
  provisionFunc : Provisioner;
  cleanupFunc : Cleaner;
  namespaces : list string
}.

(** Call a capability; the ghost event [mk res] records the call. *)
Definition runCap (f : Secrets -> option error * Secrets * list RCall)
    (mk : option error -> Event) : M (option error) := fun w =>
  let '(res, s, calls) := f (secrets w) in
  (res, emit (mk res) (mkWorld (store w) s (inj w) (now w) (trace w ++ map EvRemote calls))).

(** The deferred status update of [Reconcile], run when [reconcileErr] is set. *)
Definition deferStatus (u : Obj) (reconcileErr : error) : M (option error) :=
  let* g := apiGet (objKey u) in
  match g with
  | inr _ => ret (Some reconcileErr)
  | inl latestU =>
      let* statusMap := updateGenericStatus latestU false (Some reconcileErr) in
      let* _ := patchStatus latestU statusMap in
      ret (Some reconcileErr)
  end.

(** The provisioning tail of [Reconcile] (finalizer present). *)
Definition reconcileProvision (c : Controller) (u : Obj) : M (option error) :=
  let* provisionErr := runCap (provisionFunc c u (namespaces c)) (EvProvision (objKey u)) in
  match provisionErr with
  | Some e => deferStatus u (Wrapped "provisioning failed: " e)
  | None =>
      let* statusMap := updateGenericStatus u true None in
      patchStatus u statusMap
  end.

Definition Reconcile (c : Controller) (u : Obj) : M (option error) :=
  let F := finalizerName c in
  if negb (IsZero (o_deletionTimestamp u)) then
    if containsFinalizer u F then
      let* cleanupErr := runCap (cleanupFunc c u) (EvCleanup (objKey u)) in
      match cleanupErr with
      | Some e => deferStatus u (Wrapped "cleanup failed: " e)
      | None =>
          let* err := patchFinalizer u F (removeString (o_finalizers u) F) in
          match err with
          | Some e => deferStatus u (Wrapped "finalizer removal patch failed: " e)
          | None => ret None
          end
      end
    else ret None
  else if negb (containsFinalizer u F) then
    let* err := patchFinalizer u F (o_finalizers u ++ [F]) in
    match err with
    | Some e => deferStatus u (Wrapped "finalizer addition patch failed: " e)
    | None =>
        let* statusMap := updateGenericStatus u false None in
        let* _ := patchStatus u statusMap in
        reconcileProvision c u
    end
  else reconcileProvision c u.

(** ** workqueue.go: [reconcileByKey] *)

(** [strings.Split(s, "/")] *)
Fixpoint splitSlash (s : string) : list string :=
  match s with
  | EmptyString => [""%string]
  | String ch rest =>
      let parts := splitSlash rest in
      if Ascii.eqb ch "/"%char then ""%string :: parts
      else match parts with
           | p :: ps => String ch p :: ps
           | [] => [String ch EmptyString]
           end
  end.

(** [cache.SplitMetaNamespaceKey] *)
Definition SplitMetaNamespaceKey (key : string) : option (string * string) :=
  match splitSlash key with
  | [name] => Some (""%string, name)
  | [ns; name] => Some (ns, name)
  | _ => None
  end.

Definition reconcileByKey (c : Controller) (key : string) : M (option error) :=
  match SplitMetaNamespaceKey key with
  | None => ret (Some (Plain ("invalid resource key: " +:+ key)))
  | Some k =>
      let* r := apiGet k in
      match r with
      | inr NotFound => ret None
      | inr e => ret (Some (Wrapped ("failed to fetch resource " +:+ key +:+ ": ") (ApiError e)))
      | inl u => Reconcile c u
      end
  end.

(** ** main.go: the ArgoCluster capabilities *)

(** [fmt.Sprintf("%v", []string)] *)
Definition fmtStrings (l : list string) : string :=
  "[" +:+ String.concat " " l +:+ "]".

Section ArgoCluster.

(** Base64 decoding of the kubeconfig, [clientcmd.Load] and the JSON
    encoding of the Argo config, taken together: the encoded kubeconfig
    value gives the cluster's server URL and the Argo config, or fails. *)
Variable loadConfig : string -> option (string * string).

(** [applyArgoCluster] *)
Definition applyArgoCluster : Provisioner := fun obj namespaces s =>
  let namespace := o_namespace obj in
  let clusterName := spec_clusterName (o_spec obj) in
  let project := spec_project (o_spec obj) in
  let argoNamespace := spec_argoNamespace (o_spec obj) in
  if existsb (String.eqb argoNamespace) namespaces then
    (Some (Plain ("argoNamespace is in the list of blocked namespaces, not creating secret: "
                  +:+ fmtStrings namespaces)), s, [])
  else
    let kcName := clusterName +:+ "-kubeconfig" in
    let getCall := RGetSecret namespace kcName in
    match s !! (namespace, kcName) with
    | None => (Some (Plain ("unable to retrieve kubeconfig secret: " +:+ apiErrString NotFound)),
               s, [getCall])
    | Some data =>
        match data !! "value"%string with
        | None => (Some (Plain "value does not exist in kubeconfig secret"), s, [getCall])
        | Some encoded =>
            match loadConfig encoded with
            | None => (Some (Plain "failed to read kubconfig data"), s, [getCall])
            | Some (server, config) =>
                let secretData : SecretData :=
                  <["name" := clusterName]> (<["server" := server]>
                  (<["clusterresources" := "true"]> (<["project" := project]>
                  (<["config" := config]> ∅)))) in
                let secretName := clusterName +:+ "-argo-cluster" in
                (None, <[(argoNamespace, secretName) := secretData]> s,
                 [getCall; RApplySecret argoNamespace secretName])
            end
        end
    end%string.

End ArgoCluster.

(** [deleteClusterCleanup] *)
Definition deleteClusterCleanup : Cleaner := fun obj s =>
  let secretName := (spec_clusterName (o_spec obj) +:+ "-argo-cluster")%string in
  let argoNamespace := spec_argoNamespace (o_spec obj) in
  match s !! (argoNamespace, secretName) with
  | None => (Some (ApiError NotFound), s, [RDeleteSecret argoNamespace secretName])
  | Some _ => (None, delete (argoNamespace, secretName) s,
               [RDeleteSecret argoNamespace secretName])
  end.

(** ** main.go: the ArgoNamespace cleanup *)

(** The fields of an [ArgoNamespace] its cleanup reads: the object's
    namespace and [spec.argoNamespace], [spec.serviceAccount]. *)
Record ArgoNamespace := mkArgoNamespace {
  ans_namespace : string;
  ans_argoNamespace : string;
  ans_serviceAccount : string
}.

(** The namespaced resources the cleanup deletes, as (resource, namespace,
    name): "secrets", "serviceaccounts" and "rolebindings". *)
Abbreviation Resources := (gset (string * string * string)).

(** [client.Resource(gvr).Namespace(ns).Delete(name)] *)
Definition deleteResource (resource ns name : string) (rs : Resources)
  : option ApiErr * Resources :=
  if decide ((resource, ns, name) ∈ rs) then (None, rs ∖ {[(resource, ns, name)]})
  else (Some NotFound, rs).

(** [deleteSecret] *)
Definition deleteSecret (namespace secretName : string) (rs : Resources)
  : option ApiErr * Resources :=
  deleteResource "secrets" namespace secretName rs.

(** [deleteNamespaceCleanup]: every failure is returned at once. *)
Definition deleteNamespaceCleanup (argoNs : ArgoNamespace) (rs : Resources)
  : option error * Resources :=
  let namespace := ans_namespace argoNs in
  let clusterName := "supervisor-ns-" +:+ ans_namespace argoNs in
  let secretName := clusterName +:+ "-argo-cluster" in
  let argoNamespace := ans_argoNamespace argoNs in
  let saName := if String.eqb (ans_serviceAccount argoNs) "" then "argo-attach-sa"
                else ans_serviceAccount argoNs in
  let saToken := saName +:+ "-token" in
  match deleteResource "secrets" namespace saToken rs with
  | (Some e, rs1) => (Some (ApiError e), rs1)
  | (None, rs1) =>
      let sa := if String.eqb (ans_serviceAccount argoNs) "" then
                  match deleteResource "serviceaccounts" namespace saName rs1 with
                  | (Some e, rs2) => (Some e, rs2)
                  | (None, rs2) => deleteResource "rolebindings" namespace saName rs2
                  end
                else (None, rs1) in
      match sa with
      | (Some e, rs3) => (Some (ApiError e), rs3)
      | (None, rs3) =>
          match deleteSecret argoNamespace secretName rs3 with
          | (Some e, rs4) => (Some (ApiError e), rs4)
          | (None, rs4) => (None, rs4)
          end
      end
  end%string.

(** ** The rate-limited work queue (client-go [workqueue]) *)

(** Queue items are [interface{}]: a string key, or anything else. *)
Abbreviation Item := (string + nat)%type.

Record Queue := mkQueue {
  q_queue : list Item;
  q_dirty : list Item;
  q_processing : list Item;
  q_shuttingDown : bool;
  q_failures : gmap Item nat;          (** the exponential rate limiter *)
  q_waiting : list (Item * Z)          (** delayed adds, with their delay in ms *)
}.

Definition queueAdd (x : Item) (q : Queue) : Queue :=
  if q_shuttingDown q then q
  else if bool_decide (x ∈ q_dirty q) then q
  else if bool_decide (x ∈ q_processing q) then
    mkQueue (q_queue q) (x :: q_dirty q) (q_processing q) (q_shuttingDown q)
            (q_failures q) (q_waiting q)
  else mkQueue (q_queue q ++ [x]) (x :: q_dirty q) (q_processing q) (q_shuttingDown q)
               (q_failures q) (q_waiting q).

(** [Get]: [None] when it blocks; [Some (None, q)] is the shutdown sentinel. *)
Definition queueGet (q : Queue) : option (option Item * Queue) :=
  match q_queue q with
  | [] => if q_shuttingDown q then Some (None, q) else None
  | x :: rest =>
      Some (Some x, mkQueue rest (filter (fun y => y ≠ x) (q_dirty q)) (x :: q_processing q)
                            (q_shuttingDown q) (q_failures q) (q_waiting q))
  end.

Definition queueDone (x : Item) (q : Queue) : Queue :=
  let q' := mkQueue (q_queue q) (q_dirty q) (filter (fun y => y ≠ x) (q_processing q))
                    (q_shuttingDown q) (q_failures q) (q_waiting q) in
  if bool_decide (x ∈ q_dirty q) then
    mkQueue (q_queue q' ++ [x]) (q_dirty q') (q_processing q') (q_shuttingDown q')
            (q_failures q') (q_waiting q')
  else q'.

Definition NumRequeues (x : Item) (q : Queue) : nat := default 0%nat (q_failures q !! x).

Definition queueForget (x : Item) (q : Queue) : Queue :=
  mkQueue (q_queue q) (q_dirty q) (q_processing q) (q_shuttingDown q)
          (delete x (q_failures q)) (q_waiting q).

(** [NewItemExponentialFailureRateLimiter(time.Second, 60*time.Second)].When *)
Definition baseDelay : Z := 1000.
Definition maxDelay : Z := 60000.

Definition rateLimiterWhen (x : Item) (q : Queue) : Z * Queue :=
  let exp := NumRequeues x q in
  let q' := mkQueue (q_queue q) (q_dirty q) (q_processing q) (q_shuttingDown q)
                    (<[x := S exp]> (q_failures q)) (q_waiting q) in
  let backoff := baseDelay * 2 ^ Z.of_nat exp in
  (if backoff >? maxDelay then maxDelay else backoff, q').

Definition queueAddAfter (x : Item) (d : Z) (q : Queue) : Queue :=
  if q_shuttingDown q then q
  else if d <=? 0 then queueAdd x q
  else mkQueue (q_queue q) (q_dirty q) (q_processing q) (q_shuttingDown q)
               (q_failures q) (q_waiting q ++ [(x, d)]).

Definition queueAddRateLimited (x : Item) (q : Queue) : Queue :=
  let '(d, q') := rateLimiterWhen x q in queueAddAfter x d q'.

(** [processNextWorkItem]; [None] when [Get] blocks.  [Done] is deferred,
    so it runs last. *)
Definition processNextWorkItem (reconcile : string -> M (option error))
    (q : Queue) (w : World) : option (bool * Queue * World) :=
  match queueGet q with
  | None => None
  | Some (None, q1) => Some (false, q1, w)
  | Some (Some obj, q1) =>
      match obj with
      | inr _ => Some (true, queueDone obj (queueForget obj q1), w)
      | inl key =>
          let '(r, w1) := reconcile key w in
          match r with
          | Some err =>
              if (NumRequeues obj q1 <? 10)%nat then
                Some (true, queueDone obj (queueAddRateLimited obj q1),
                      emit (EvLog ("Failed to reconcile " +:+ key +:+ ": " +:+
                                   errorString err +:+ ". Retrying...")) w1)
              else
                Some (true, queueDone obj (queueForget obj q1),
                      emit (EvLog ("Max retries exceeded for " +:+ key +:+ ": " +:+
                                   errorString err +:+ ". Forgetting item.")) w1)
          | None => Some (true, queueDone obj (queueForget obj q1), w1)
          end
      end
  end%string.

(** ** The informer's update handler *)

(** The informer delivers [interface{}] payloads. *)
Inductive Any :=
| AnyUnstructured (u : Obj)
| AnyOther.

Definition toUnstructured (a : Any) : option Obj :=
  match a with AnyUnstructured u => Some u | AnyOther => None end.

(** [cache.MetaNamespaceKeyFunc] on an object. *)
Definition MetaNamespaceKeyFunc (o : Obj) : string :=
  if String.eqb (o_namespace o) "" then o_name o
  else (o_namespace o +:+ "/" +:+ o_name o)%string.

(** [UpdateFunc]: the key handed to [Queue.Add], if any. *)
Definition UpdateFunc (oldObj newObj : Any) : option string :=
  match toUnstructured oldObj with
  | None => None
  | Some oldU =>
      match toUnstructured newObj with
      | None => None
      | Some newU =>
          let generationChanged := negb (Z.eqb (o_generation oldU) (o_generation newU)) in
          let deletionRequested := negb (IsZero (o_deletionTimestamp newU)) in
          if generationChanged || deletionRequested then Some (MetaNamespaceKeyFunc newU)
          else None
      end
  end.

Definition handleUpdate (oldObj newObj : Any) (q : Queue) : Queue :=
  match UpdateFunc oldObj newObj with
  | Some key => queueAdd (inl key) q
  | None => q
  end.

(** [AddFunc] and [DeleteFunc]: [cache.MetaNamespaceKeyFunc] on the
    payload, which fails on anything that is not an object; the key handed
    to [Queue.Add], if any. *)
Definition AddFunc (obj : Any) : option string :=
  match obj with
  | AnyUnstructured u => Some (MetaNamespaceKeyFunc u)
  | AnyOther => None
  end.

Definition DeleteFunc (obj : Any) : option string :=
  match obj with
  | AnyUnstructured u => Some (MetaNamespaceKeyFunc u)
  | AnyOther => None
  end.

Definition handleAdd (obj : Any) (q : Queue) : Queue :=
  match AddFunc obj with
  | Some key => queueAdd (inl key) q
  | None => q
  end.

Definition handleDelete (obj : Any) (q : Queue) : Queue :=
  match DeleteFunc obj with
  | Some key => queueAdd (inl key) q
  | None => q
  end.

(** * Proofs *)

(** ** Reasoning about the monad: frame relations and results *)

Definition preserves {A} (R : World -> World -> Prop) (m : M A) : Prop :=
  forall w, R w (snd (m w)).

Definition yields {A} (P : A -> Prop) (m : M A) : Prop :=
  forall w, P (fst (m w)).

Section Frame.
Context (R : World -> World -> Prop) `{!Reflexive R} `{!Transitive R}.

Lemma preserves_ret {A} (a : A) : preserves R (ret a).
Proof. intros w. simpl. reflexivity. Qed.

Lemma preserves_bind {A B} (m : M A) (k : A -> M B) :
  preserves R m -> (forall a, preserves R (k a)) -> preserves R (bind m k).
Proof.
  intros Hm Hk w. unfold bind. specialize (Hm w).
  destruct (m w) as [a w1]. simpl in Hm. etransitivity; [exact Hm | apply Hk].
Qed.

End Frame.

Lemma yields_ret {A} (P : A -> Prop) (a : A) : P a -> yields P (ret a).
Proof. intros H w. exact H. Qed.

Lemma yields_bind {A B} (P : B -> Prop) (m : M A) (k : A -> M B) :
  (forall a, yields P (k a)) -> yields P (bind m k).
Proof. intros Hk w. unfold bind. destruct (m w) as [a w1]. apply Hk. Qed.

(** The frame relations used below. *)
Definition sameStore (w w' : World) : Prop := store w' = store w.
Definition sameSecrets (w w' : World) : Prop := secrets w' = secrets w.
Definition sameFinalizers (w w' : World) : Prop :=
  forall k, o_finalizers <$> store w' !! k = o_finalizers <$> store w !! k.
Definition extends (P : Event -> Prop) (w w' : World) : Prop :=
  exists evs, trace w' = trace w ++ evs /\ Forall P evs.

#[local] Instance sameStore_refl : Reflexive sameStore.
Proof. intros w. reflexivity. Qed.
#[local] Instance sameStore_trans : Transitive sameStore.
Proof. intros x y z H1 H2. unfold sameStore in *. congruence. Qed.
#[local] Instance sameSecrets_refl : Reflexive sameSecrets.
Proof. intros w. reflexivity. Qed.
#[local] Instance sameSecrets_trans : Transitive sameSecrets.
Proof. intros x y z H1 H2. unfold sameSecrets in *. congruence. Qed.
#[local] Instance sameFinalizers_refl : Reflexive sameFinalizers.
Proof. intros w k. reflexivity. Qed.
#[local] Instance sameFinalizers_trans : Transitive sameFinalizers.
Proof. intros x y z H1 H2 k. rewrite H2, H1. reflexivity. Qed.
#[local] Instance extends_refl P : Reflexive (extends P).
Proof. intros w. exists []. rewrite app_nil_r. split; [reflexivity | constructor]. Qed.
#[local] Instance extends_trans P : Transitive (extends P).
Proof.
  intros x y z [e1 [H1 F1]] [e2 [H2 F2]]. exists (e1 ++ e2).
  rewrite H2, H1, app_assoc. split; [reflexivity | apply Forall_app; auto].
Qed.

(** Events that only read the store, write status, or wait. *)
Definition statusOnly (ev : Event) : Prop :=
  match ev with
  | EvGet _ _ | EvApplyStatus _ _ _ | EvSleep _ => True
  | _ => False
  end.

Create HintDb frame.

Ltac mrun :=
  repeat match goal with
  | |- preserves _ (bind _ _) => apply preserves_bind; [typeclasses eauto .. | | intros ?]
  | |- preserves _ (ret _) => apply preserves_ret; typeclasses eauto
  | |- yields _ (bind _ _) => apply yields_bind; intros ?
  | |- yields _ (ret _) => apply yields_ret
  | |- preserves _ (match ?x with _ => _ end) => destruct x
  | |- yields _ (match ?x with _ => _ end) => destruct x
  end.

Lemma takeFault_store : preserves sameStore takeFault.
Proof. intros w. unfold takeFault. destruct (inj w); reflexivity. Qed.
Lemma takeFault_secrets : preserves sameSecrets takeFault.
Proof. intros w. unfold takeFault. destruct (inj w); reflexivity. Qed.
Lemma takeFault_trace P : preserves (extends P) takeFault.
Proof.
  intros w. unfold takeFault. destruct (inj w); simpl.
  - reflexivity.
  - exists []. rewrite app_nil_r. split; [reflexivity | constructor].
Qed.
Lemma log_store e : preserves sameStore (log e).
Proof. intros w. reflexivity. Qed.
Lemma log_secrets e : preserves sameSecrets (log e).
Proof. intros w. reflexivity. Qed.
Lemma log_trace (P : Event -> Prop) e : P e -> preserves (extends P) (log e).
Proof. intros He w. exists [e]. split; [reflexivity | repeat constructor; exact He]. Qed.
Lemma Now_store : preserves sameStore Now.
Proof. intros w. reflexivity. Qed.
Lemma Now_secrets : preserves sameSecrets Now.
Proof. intros w. reflexivity. Qed.
Lemma Now_trace P : preserves (extends P) Now.
Proof. intros w. exists []. rewrite app_nil_r. split; [reflexivity | constructor]. Qed.

Lemma sameStore_finalizers w w' : sameStore w w' -> sameFinalizers w w'.
Proof. intros H k. rewrite H. reflexivity. Qed.

Lemma apiGet_store k : preserves sameStore (apiGet k).
Proof.
  unfold apiGet. apply preserves_bind; [typeclasses eauto .. | apply takeFault_store |].
  intros [e|].
  - apply preserves_bind; [typeclasses eauto .. | apply log_store | intros; apply preserves_ret; typeclasses eauto].
  - intros w. destruct (store w !! k); reflexivity.
Qed.

Lemma apiGet_secrets k : preserves sameSecrets (apiGet k).
Proof.
  unfold apiGet. apply preserves_bind; [typeclasses eauto .. | apply takeFault_secrets |].
  intros [e|].
  - apply preserves_bind; [typeclasses eauto .. | apply log_secrets | intros; apply preserves_ret; typeclasses eauto].
  - intros w. destruct (store w !! k); reflexivity.
Qed.

Lemma apiGet_trace k : preserves (extends statusOnly) (apiGet k).
Proof.
  unfold apiGet. apply preserves_bind; [typeclasses eauto .. | apply takeFault_trace |].
  intros [e|].
  - apply preserves_bind; [typeclasses eauto .. | apply log_trace; exact I |
      intros; apply preserves_ret; typeclasses eauto].
  - intros w. destruct (store w !! k); simpl;
      (eexists; split; [reflexivity | repeat constructor]).
Qed.

Lemma apiApplyStatus_finalizers k st : preserves sameFinalizers (apiApplyStatus k st).
Proof.
  unfold apiApplyStatus. apply preserves_bind; [typeclasses eauto .. |
    intros w; apply sameStore_finalizers, takeFault_store |].
  intros [e|].
  - apply preserves_bind; [typeclasses eauto .. | intros w; apply sameStore_finalizers, log_store |
      intros; apply preserves_ret; typeclasses eauto].
  - intros w. destruct (store w !! k) as [o|] eqn:E; simpl; intros k'; simpl; [|reflexivity]. destruct (decide (k = k')) as [<-|Hne].
    + rewrite lookup_insert_eq, E. reflexivity.
    + rewrite lookup_insert_ne by exact Hne. reflexivity.
Qed.

Lemma apiApplyStatus_secrets k st : preserves sameSecrets (apiApplyStatus k st).
Proof.
  unfold apiApplyStatus. apply preserves_bind; [typeclasses eauto .. | apply takeFault_secrets |].
  intros [e|].
  - apply preserves_bind; [typeclasses eauto .. | apply log_secrets |
      intros; apply preserves_ret; typeclasses eauto].
  - intros w. destruct (store w !! k); reflexivity.
Qed.

Lemma apiApplyStatus_trace k st : preserves (extends statusOnly) (apiApplyStatus k st).
Proof.
  unfold apiApplyStatus. apply preserves_bind; [typeclasses eauto .. | apply takeFault_trace |].
  intros [e|].
  - apply preserves_bind; [typeclasses eauto .. | apply log_trace; exact I |
      intros; apply preserves_ret; typeclasses eauto].
  - intros w. destruct (store w !! k); simpl;
      (eexists; split; [reflexivity | repeat constructor]).
Qed.

#[local] Hint Resolve takeFault_store takeFault_secrets takeFault_trace log_store log_secrets
  Now_store Now_secrets Now_trace apiGet_store apiGet_secrets apiGet_trace
  apiApplyStatus_finalizers apiApplyStatus_secrets apiApplyStatus_trace : frame.

Lemma sleep_finalizers ms : preserves sameFinalizers (sleep ms).
Proof. intros w k. reflexivity. Qed.
Lemma sleep_trace ms : preserves (extends statusOnly) (sleep ms).
Proof. apply log_trace. exact I. Qed.
Lemma Now_finalizers : preserves sameFinalizers Now.
Proof. intros w k. reflexivity. Qed.
Lemma apiGet_finalizers k : preserves sameFinalizers (apiGet k).
Proof. intros w. apply sameStore_finalizers, apiGet_store. Qed.

#[local] Hint Resolve sleep_finalizers sleep_trace Now_finalizers apiGet_finalizers : frame.

Ltac frame :=
  repeat match goal with
  | |- preserves _ (bind _ _) => apply preserves_bind; [typeclasses eauto .. | | intros ?]
  | |- preserves _ (ret _) => apply preserves_ret; typeclasses eauto
  | |- preserves _ (match ?x with _ => _ end) => destruct x
  | |- preserves ?R (if ?b then _ else _) => destruct b
  | |- preserves _ _ => solve [eauto with frame]
  end.

Lemma patchStatusLoop_finalizers obj st i fuel last :
  preserves sameFinalizers (patchStatusLoop obj st i fuel last).
Proof.
  revert i last. induction fuel as [|fuel IH]; intros i last; simpl; frame.
Qed.
Lemma patchStatusLoop_secrets obj st i fuel last :
  preserves sameSecrets (patchStatusLoop obj st i fuel last).
Proof.
  revert i last. induction fuel as [|fuel IH]; intros i last; simpl; frame.
  all: intros w; reflexivity.
Qed.
Lemma patchStatusLoop_trace obj st i fuel last :
  preserves (extends statusOnly) (patchStatusLoop obj st i fuel last).
Proof.
  revert i last. induction fuel as [|fuel IH]; intros i last; simpl; frame.
Qed.

#[local] Hint Resolve patchStatusLoop_finalizers patchStatusLoop_secrets patchStatusLoop_trace : frame.

Lemma updateGenericStatus_finalizers u b e : preserves sameFinalizers (updateGenericStatus u b e).
Proof. unfold updateGenericStatus. frame. Qed.
Lemma updateGenericStatus_secrets u b e : preserves sameSecrets (updateGenericStatus u b e).
Proof. unfold updateGenericStatus. frame. Qed.
Lemma updateGenericStatus_trace u b e : preserves (extends statusOnly) (updateGenericStatus u b e).
Proof. unfold updateGenericStatus. frame. Qed.

#[local] Hint Resolve updateGenericStatus_finalizers updateGenericStatus_secrets
  updateGenericStatus_trace : frame.

(** The deferred status update writes status only, and returns the error. *)
Lemma deferStatus_finalizers u e : preserves sameFinalizers (deferStatus u e).
Proof. unfold deferStatus, patchStatus. frame. Qed.
Lemma deferStatus_secrets u e : preserves sameSecrets (deferStatus u e).
Proof. unfold deferStatus, patchStatus. frame. Qed.
Lemma deferStatus_trace u e : preserves (extends statusOnly) (deferStatus u e).
Proof. unfold deferStatus, patchStatus. frame. Qed.
Lemma deferStatus_result u e : yields (fun r => r = Some e) (deferStatus u e).
Proof. unfold deferStatus. mrun; reflexivity. Qed.

#[local] Hint Resolve deferStatus_finalizers deferStatus_secrets deferStatus_trace : frame.

(** ** C8: the update-event filter *)

(** C8: an Update event enqueues the object's key exactly when the
    generation changed or the new object carries a non-zero deletion
    timestamp; otherwise it is dropped and the queue is left unchanged. *)
Theorem UpdateFunc_enqueue_iff (oldU newU : Obj) :
  (UpdateFunc (AnyUnstructured oldU) (AnyUnstructured newU) <> None <->
     o_generation oldU <> o_generation newU \/
     IsZero (o_deletionTimestamp newU) = false) /\
  (forall key, UpdateFunc (AnyUnstructured oldU) (AnyUnstructured newU) = Some key ->
     key = MetaNamespaceKeyFunc newU) /\
  (o_generation oldU = o_generation newU -> IsZero (o_deletionTimestamp newU) = true ->
     forall q, handleUpdate (AnyUnstructured oldU) (AnyUnstructured newU) q = q).
Proof.
  unfold handleUpdate, UpdateFunc; simpl.
  destruct (Z.eqb_spec (o_generation oldU) (o_generation newU)) as [Heq|Hne];
    destruct (IsZero (o_deletionTimestamp newU)) eqn:Hz; simpl.
  - split; [split; [congruence | intros [H|H]; congruence] |].
    split; [congruence | reflexivity].
  - split; [split; [intros _; right; reflexivity | congruence] |].
    split; [congruence | congruence].
  - split; [split; [intros _; left; exact Hne | congruence] |].
    split; [congruence | congruence].
  - split; [split; [intros _; left; exact Hne | congruence] |].
    split; [congruence | congruence].
Qed.

(** ** C4: a key whose object is gone *)

Lemma apiGet_notfound_trace k w w1 :
  apiGet k w = (inr NotFound, w1) -> trace w1 = trace w ++ [EvGet k (Some NotFound)].
Proof.
  unfold apiGet, bind, takeFault, log, ret. destruct (inj w) as [|[e|] r]; simpl.
  - destruct (store w !! k); intros H; inversion H; reflexivity.
  - intros H; inversion H; reflexivity.
  - destruct (store w !! k); intros H; inversion H; reflexivity.
Qed.

(** C4: when the fetch of the key's object returns NotFound, [reconcileByKey]
    returns no error (so no requeue), and the only remote call it made was
    that fetch: the store and the secrets are unchanged and no status write
    or patch was issued. *)
Theorem reconcileByKey_not_found (c : Controller) (key : string) (k : string * string)
    (w w1 : World)
    (Hsplit : SplitMetaNamespaceKey key = Some k)
    (Hget : apiGet k w = (inr NotFound, w1)) :
  reconcileByKey c key w = (None, w1) /\ store w1 = store w /\
  secrets w1 = secrets w /\ trace w1 = trace w ++ [EvGet k (Some NotFound)].
Proof.
  pose proof (apiGet_store k w) as Hs. pose proof (apiGet_secrets k w) as Hsec.
  unfold sameStore, sameSecrets in *. rewrite Hget in Hs, Hsec. simpl in Hs, Hsec.
  split; [| split; [exact Hs | split; [exact Hsec | apply apiGet_notfound_trace; exact Hget]]].
  unfold reconcileByKey. rewrite Hsplit. unfold bind at 1. rewrite Hget. reflexivity.
Qed.

Lemma reconcileByKey_not_found_witness :
  let w := mkWorld ∅ ∅ [] 0 [] in
  let k := ("ns1", "foo")%string in
  SplitMetaNamespaceKey "ns1/foo" = Some k /\
  apiGet k w = (inr NotFound, emit (EvGet k (Some NotFound)) w) /\
  reconcileByKey (mkController "fin" (fun _ _ s => (None, s, [])) (fun _ s => (None, s, [])) [])
    "ns1/foo" w = (None, emit (EvGet k (Some NotFound)) w).
Proof.
  intros w k. split; [reflexivity | split; [reflexivity |]].
  apply (reconcileByKey_not_found _ "ns1/foo" k w (emit (EvGet k (Some NotFound)) w));
    reflexivity.
Defined.

(** ** C7: the worker's handling of a failed reconcile *)

(** C7: when the dequeued key's reconcile fails, the worker goes on
    ([processNextWorkItem] returns true) and logs the error; below 10
    recorded requeues the key is re-added with rate limiting (failure count
    incremented, delayed by the exponential backoff unless the queue is
    shutting down); from 10 on it is forgotten: the counter is reset and
    nothing is re-added. *)
Theorem processNextWorkItem_on_failure (reconcile : string -> M (option error))
    (q q1 : Queue) (w w1 : World) (key : string) (err : error)
    (Hget : queueGet q = Some (Some (inl key), q1))
    (Hrec : reconcile key w = (Some err, w1)) :
  let n := NumRequeues (inl key) q1 in
  exists q' w', processNextWorkItem reconcile q w = Some (true, q', w') /\
    store w' = store w1 /\ secrets w' = secrets w1 /\
    (exists msg, trace w' = trace w1 ++ [EvLog msg]) /\
    ((n < 10)%nat ->
       q' = queueDone (inl key) (queueAddRateLimited (inl key) q1) /\
       q_failures q' !! inl key = Some (S n) /\
       (q_shuttingDown q1 = false ->
          q_waiting q' = q_waiting q1 ++
                         [(inl key, Z.min (baseDelay * 2 ^ Z.of_nat n) maxDelay)])) /\
    ((10 <= n)%nat ->
       q' = queueDone (inl key) (queueForget (inl key) q1) /\
       q_failures q' !! inl key = None /\ q_waiting q' = q_waiting q1).
Proof.
  intros n. unfold processNextWorkItem. rewrite Hget, Hrec.
  change (NumRequeues (inl key) q1) with n.
  destruct (Nat.ltb_spec n 10) as [Hlt|Hge].
  - eexists _, _. split; [reflexivity |]. simpl.
    split; [reflexivity | split; [reflexivity | split; [eexists; reflexivity |]]].
    split; [| intros Hc; lia].
    intros _. split; [reflexivity |].
    unfold queueAddRateLimited, rateLimiterWhen, queueAddAfter. fold n.
    assert (Hmin : (if baseDelay * 2 ^ Z.of_nat n >? maxDelay then maxDelay
                    else baseDelay * 2 ^ Z.of_nat n) =
                   Z.min (baseDelay * 2 ^ Z.of_nat n) maxDelay).
    { destruct (Z.gtb_spec (baseDelay * 2 ^ Z.of_nat n) maxDelay); lia. }
    rewrite Hmin. simpl.
    assert (Hpos : 0 < Z.min (baseDelay * 2 ^ Z.of_nat n) maxDelay).
    { apply Z.min_glb_lt; [| unfold maxDelay; lia].
      unfold baseDelay. apply Z.mul_pos_pos; [lia | apply Z.pow_pos_nonneg; lia]. }
    destruct (q_shuttingDown q1) eqn:Hsd; simpl.
    + split; [unfold queueDone; simpl; case_bool_decide; simpl; apply lookup_insert_eq |].
      intros Hc; discriminate.
    + destruct (Z.leb_spec (Z.min (baseDelay * 2 ^ Z.of_nat n) maxDelay) 0); [lia |].
      simpl. unfold queueDone; simpl.
      split; [case_bool_decide; simpl; apply lookup_insert_eq |].
      intros _. case_bool_decide; reflexivity.
  - eexists _, _. split; [reflexivity |]. simpl.
    split; [reflexivity | split; [reflexivity | split; [eexists; reflexivity |]]].
    split; [intros Hc; lia |].
    intros _. split; [reflexivity |]. unfold queueDone, queueForget; simpl.
    split; [case_bool_decide; simpl; apply lookup_delete_eq |].
    case_bool_decide; reflexivity.
Qed.

Lemma processNextWorkItem_on_failure_witness :
  let q := mkQueue [inl "ns1/foo"%string] [inl "ns1/foo"%string] [] false ∅ [] in
  let rec : string -> M (option error) := fun _ w => (Some (Plain "boom"), w) in
  let w := mkWorld ∅ ∅ [] 0 [] in
  queueGet q = Some (Some (inl "ns1/foo"%string), mkQueue [] [] [inl "ns1/foo"%string] false ∅ []) /\
  rec "ns1/foo"%string w = (Some (Plain "boom"), w) /\
  exists q' w', processNextWorkItem rec q w = Some (true, q', w').
Proof.
  intros q rec w. split; [vm_compute; reflexivity | split; [reflexivity |]].
  destruct (processNextWorkItem_on_failure rec q
              (mkQueue [] [] [inl "ns1/foo"%string] false ∅ []) w w
              "ns1/foo"%string (Plain "boom") ltac:(vm_compute; reflexivity) eq_refl)
    as [q' [w' [H _]]].
  exists q', w'. exact H.
Defined.

(** ** C3: the status-patch retry policy *)

Definition conflictClass (e : ApiErr) : bool :=
  IsConflict (ApiError e) || IsAlreadyExists (ApiError e).

(** The trace of the retried attempts: each conflict-class response is
    followed by a 100ms sleep. *)
Definition retryEvents (k : string * string) (st : Status) (rs : list ApiErr) : list Event :=
  flat_map (fun e => [EvApplyStatus k st (Some e); EvSleep 100]) rs.

Lemma apiApplyStatus_event k st w :
  trace (snd (apiApplyStatus k st w)) = trace w ++ [EvApplyStatus k st (fst (apiApplyStatus k st w))].
Proof.
  unfold apiApplyStatus, bind, takeFault, log, ret.
  destruct (inj w) as [|[e|] r]; simpl; [destruct (store w !! k) | | destruct (store w !! k)];
    reflexivity.
Qed.

Lemma patchStatusLoop_shape obj st i fuel last w :
  let '(r, w') := patchStatusLoop obj st i fuel last w in
  exists rs tl, trace w' = trace w ++ retryEvents (objKey obj) st rs ++ tl /\
    Forall (fun e => conflictClass e = true) rs /\
    ((List.length rs = fuel /\ tl = [] /\ r <> None) \/
     ((List.length rs < fuel)%nat /\ exists res, tl = [EvApplyStatus (objKey obj) st res] /\
        (((res = None \/ res = Some NotFound) /\ r = None) \/
         (exists e, res = Some e /\ e <> NotFound /\ conflictClass e = false /\
                    exists msg, r = Some (Wrapped msg (ApiError e)))))).
Proof.
  revert i last w. induction fuel as [|fuel IH]; intros i last w; simpl.
  - exists [], []. rewrite !app_nil_r. split; [reflexivity |].
    split; [constructor | left; split; [reflexivity | split; [reflexivity | discriminate]]].
  - unfold bind at 1. pose proof (apiApplyStatus_event (objKey obj) st w) as Htr.
    destruct (apiApplyStatus (objKey obj) st w) as [res w1]. simpl in Htr.
    destruct res as [e|].
    + destruct e as [| | |m]; simpl.
      * exists [], [EvApplyStatus (objKey obj) st (Some NotFound)].
        split; [exact Htr |]. split; [constructor |].
        right. split; [simpl; lia |]. eexists; split; [reflexivity |]. left; split; [right |]; reflexivity.
      * unfold bind, sleep, log. specialize (IH (S i) (Some (Wrapped "status apply conflict encountered: " (ApiError Conflict))) (emit (EvSleep 100) w1)).
        destruct (patchStatusLoop obj st (S i) fuel _ (emit (EvSleep 100) w1)) as [r w'].
        destruct IH as [rs [tl [Ht [Hf Hc]]]].
        exists (cons Conflict rs), tl. split.
        { rewrite Ht. simpl. rewrite Htr, <- !app_assoc. reflexivity. }
        split; [constructor; [reflexivity | exact Hf] |].
        destruct Hc as [[Hl [Htl Hr]] | [Hl Hr]]; [left | right]; simpl; (split; [lia | auto]).
      * unfold bind, sleep, log. specialize (IH (S i) (Some (Wrapped "status apply conflict encountered: " (ApiError AlreadyExists))) (emit (EvSleep 100) w1)).
        destruct (patchStatusLoop obj st (S i) fuel _ (emit (EvSleep 100) w1)) as [r w'].
        destruct IH as [rs [tl [Ht [Hf Hc]]]].
        exists (cons AlreadyExists rs), tl. split.
        { rewrite Ht. simpl. rewrite Htr, <- !app_assoc. reflexivity. }
        split; [constructor; [reflexivity | exact Hf] |].
        destruct Hc as [[Hl [Htl Hr]] | [Hl Hr]]; [left | right]; simpl; (split; [lia | auto]).
      * exists [], [EvApplyStatus (objKey obj) st (Some (OtherApiErr m))].
        split; [exact Htr |]. split; [constructor |].
        right. split; [simpl; lia |]. eexists; split; [reflexivity |]. right.
        exists (OtherApiErr m). split; [reflexivity | split; [discriminate | split; [reflexivity |]]].
        eexists; reflexivity.
    + exists [], [EvApplyStatus (objKey obj) st None].
      split; [exact Htr |]. split; [constructor |].
      right. split; [simpl; lia |]. eexists; split; [reflexivity |]. left; split; [left |]; reflexivity.
Qed.

(** C3: [patchStatus] makes at most 5 status applies; it retries only after
    a Conflict/AlreadyExists response, sleeping a fixed 100ms each time; a
    success or a NotFound response ends it with no error and no further
    attempt; any other error is returned at once; five conflict-class
    responses exhaust it with an error.  In particular Conflict on attempts
    1 and 2 and success on attempt 3 returns no error. *)
Theorem patchStatus_retry_policy (obj : Obj) (st : Status) (w : World) :
  (let '(r, w') := patchStatus obj st w in
   exists rs tl, trace w' = trace w ++ retryEvents (objKey obj) st rs ++ tl /\
    Forall (fun e => conflictClass e = true) rs /\
    ((List.length rs = 5%nat /\ tl = [] /\ r <> None) \/
     ((List.length rs < 5)%nat /\ exists res, tl = [EvApplyStatus (objKey obj) st res] /\
        (((res = None \/ res = Some NotFound) /\ r = None) \/
         (exists e, res = Some e /\ e <> NotFound /\ conflictClass e = false /\
                    exists msg, r = Some (Wrapped msg (ApiError e))))))) /\
  (forall (o : Obj) (rest : list (option ApiErr)),
     store w !! objKey obj = Some o ->
     inj w = Some Conflict :: Some Conflict :: None :: rest ->
     fst (patchStatus obj st w) = None).
Proof.
  split.
  - exact (patchStatusLoop_shape obj st 0 maxRetries None w).
  - intros o rest Hs Hi.
    unfold patchStatus, maxRetries. simpl.
    unfold bind, apiApplyStatus, takeFault, sleep, log, ret, bind. rewrite Hi. simpl.
    rewrite Hs. reflexivity.
Qed.

(** ** C10: the namespace denylist of [applyArgoCluster] *)

Lemma apiPatchFinalizers_secrets k fs : preserves sameSecrets (apiPatchFinalizers k fs).
Proof.
  unfold apiPatchFinalizers. apply preserves_bind; [typeclasses eauto .. | apply takeFault_secrets |].
  intros [e|].
  - apply preserves_bind; [typeclasses eauto .. | apply log_secrets |
      intros; apply preserves_ret; typeclasses eauto].
  - intros w. destruct (store w !! k); reflexivity.
Qed.

Lemma patchFinalizer_secrets obj F fs : preserves sameSecrets (patchFinalizer obj F fs).
Proof. unfold patchFinalizer. frame. apply apiPatchFinalizers_secrets. Qed.

#[local] Hint Resolve apiPatchFinalizers_secrets patchFinalizer_secrets : frame.

Lemma existsb_eqb_In (a : string) (l : list string) :
  In a l -> existsb (String.eqb a) l = true.
Proof.
  intros H. apply existsb_exists. exists a. split; [exact H | apply String.eqb_refl].
Qed.

Lemma applyArgoCluster_blocked loadConfig obj ns s :
  In (spec_argoNamespace (o_spec obj)) ns ->
  applyArgoCluster loadConfig obj ns s =
    (Some (Plain ("argoNamespace is in the list of blocked namespaces, not creating secret: "
                  +:+ fmtStrings ns)), s, []).
Proof.
  intros H. unfold applyArgoCluster. rewrite (existsb_eqb_In _ _ H). reflexivity.
Qed.

Section Denylisted.
Variable loadConfig : string -> option (string * string).
Variable c : Controller.
Variable obj : Obj.
Hypothesis Hprov : provisionFunc c = applyArgoCluster loadConfig.
Hypothesis Hin : In (spec_argoNamespace (o_spec obj)) (namespaces c).

Lemma reconcileProvision_blocked w :
  let '(r, w') := reconcileProvision c obj w in r <> None /\ secrets w' = secrets w.
Proof.
  unfold reconcileProvision, bind at 1, runCap. rewrite Hprov.
  rewrite (applyArgoCluster_blocked _ _ _ _ Hin). simpl.
  match goal with |- context [deferStatus obj ?e ?w1] =>
    pose proof (deferStatus_result obj e w1) as Hr;
    pose proof (deferStatus_secrets obj e w1) as Hs;
    destruct (deferStatus obj e w1) as [r w'] end.
  simpl in Hr, Hs. unfold sameSecrets in Hs. simpl in Hs. rewrite Hr. split; [discriminate | exact Hs].
Qed.

End Denylisted.

(** C10: when the ArgoCluster's [spec.argoNamespace] is in the configured
    denylist, [applyArgoCluster] fails at once, making no remote call and
    leaving the secrets untouched; a [Reconcile] pass on such a live object
    therefore returns an error (so the key is requeued, see C7) and creates
    no secret. *)
Theorem applyArgoCluster_denylisted (loadConfig : string -> option (string * string))
    (c : Controller) (obj : Obj) (w : World)
    (Hprov : provisionFunc c = applyArgoCluster loadConfig)
    (Hin : In (spec_argoNamespace (o_spec obj)) (namespaces c)) :
  (forall s, exists e, applyArgoCluster loadConfig obj (namespaces c) s = (Some e, s, [])) /\
  (IsZero (o_deletionTimestamp obj) = true ->
   let '(r, w') := Reconcile c obj w in r <> None /\ secrets w' = secrets w).
Proof.
  split.
  - intros s. eexists. apply applyArgoCluster_blocked. exact Hin.
  - intros Hz. unfold Reconcile. rewrite Hz. simpl.
    destruct (containsFinalizer obj (finalizerName c)); simpl.
    + apply (reconcileProvision_blocked loadConfig); assumption.
    + unfold bind at 1.
      pose proof (patchFinalizer_secrets obj (finalizerName c)
                    (o_finalizers obj ++ [finalizerName c]) w) as Hs1.
      destruct (patchFinalizer obj _ _ w) as [[e|] w1]; simpl in Hs1; unfold sameSecrets in Hs1.
      * pose proof (deferStatus_result obj (Wrapped "finalizer addition patch failed: " e) w1) as Hr.
        pose proof (deferStatus_secrets obj (Wrapped "finalizer addition patch failed: " e) w1) as Hs.
        destruct (deferStatus obj _ w1) as [r w']. simpl in Hr, Hs. unfold sameSecrets in Hs.
        rewrite Hr. split; [discriminate | congruence].
      * unfold bind at 1.
        pose proof (updateGenericStatus_secrets obj false None w1) as Hs2.
        destruct (updateGenericStatus obj false None w1) as [st w2]. simpl in Hs2.
        unfold bind at 1. unfold sameSecrets in Hs2.
        pose proof (patchStatusLoop_secrets obj st 0 maxRetries None w2) as Hs3.
        unfold patchStatus. destruct (patchStatusLoop obj st 0 maxRetries None w2) as [x w3].
        simpl in Hs3. unfold sameSecrets in Hs3.
        pose proof (reconcileProvision_blocked loadConfig c obj Hprov Hin w3) as H.
        destruct (reconcileProvision c obj w3) as [r w']. destruct H as [H1 H2].
        split; [exact H1 | congruence].
Qed.

Lemma applyArgoCluster_denylisted_witness :
  let obj := mkObj "foo" "ns1" 1 None [] (mkSpec "c1" "argocd" "default") None in
  let c := mkController "fin" (applyArgoCluster (fun _ => None)) (fun _ s => (None, s, []))
             ["argocd"%string] in
  provisionFunc c = applyArgoCluster (fun _ => None) /\
  In (spec_argoNamespace (o_spec obj)) (namespaces c) /\
  (forall s, exists e, applyArgoCluster (fun _ => None) obj (namespaces c) s = (Some e, s, [])).
Proof.
  intros obj c.
  assert (Hin : In (spec_argoNamespace (o_spec obj)) (namespaces c)) by (simpl; left; reflexivity).
  split; [reflexivity | split; [exact Hin |]].
  exact (proj1 (applyArgoCluster_denylisted (fun _ => None) c obj (mkWorld ∅ ∅ [] 0 [])
                  eq_refl Hin)).
Defined.

(** ** A whole [Reconcile] pass from its steps *)

Lemma extends_mono (P Q : Event -> Prop) {A} (m : M A) :
  (forall e, P e -> Q e) -> preserves (extends P) m -> preserves (extends Q) m.
Proof.
  intros HPQ Hm w. destruct (Hm w) as [evs [Ht Hf]]. exists evs.
  split; [exact Ht | eapply Forall_impl; [exact Hf | exact HPQ]].
Qed.

Lemma extends_weaken (P Q : Event -> Prop) w w' :
  (forall e, P e -> Q e) -> extends P w w' -> extends Q w w'.
Proof.
  intros HPQ [evs [Ht Hf]]. exists evs.
  split; [exact Ht | eapply Forall_impl; [exact Hf | exact HPQ]].
Qed.

Lemma runCap_trace (P : Event -> Prop) f mk :
  (forall c, P (EvRemote c)) -> (forall r, P (mk r)) -> preserves (extends P) (runCap f mk).
Proof.
  intros Hc Hm w. unfold runCap. destruct (f (secrets w)) as [[r s] calls]. simpl.
  exists (map EvRemote calls ++ [mk r]). rewrite app_assoc. split; [reflexivity |].
  apply Forall_app. split; [apply Forall_forall; intros x Hx; apply list_elem_of_In in Hx;
    apply in_map_iff in Hx; destruct Hx as [c0 [<- _]]; apply Hc | repeat constructor; apply Hm].
Qed.

Lemma runCap_store f mk : preserves sameStore (runCap f mk).
Proof. intros w. unfold runCap. destruct (f (secrets w)) as [[r s] calls]. reflexivity. Qed.

Section ReconcilePass.
Context (R : World -> World -> Prop) `{!Reflexive R} `{!Transitive R}.
Variables (c : Controller) (u : Obj).

Hypothesis HdeferStatus : forall e, preserves R (deferStatus u e).
Hypothesis HupdateStatus : forall b e, preserves R (updateGenericStatus u b e).
Hypothesis HpatchStatus : forall st, preserves R (patchStatus u st).
Hypothesis Hcleanup : preserves R (runCap (cleanupFunc c u) (EvCleanup (objKey u))).
Hypothesis Hprovision :
  preserves R (runCap (provisionFunc c u (namespaces c)) (EvProvision (objKey u))).
Hypothesis Hremove :
  IsZero (o_deletionTimestamp u) = false -> containsFinalizer u (finalizerName c) = true ->
  preserves R (patchFinalizer u (finalizerName c)
                 (removeString (o_finalizers u) (finalizerName c))).
Hypothesis Hadd :
  IsZero (o_deletionTimestamp u) = true -> containsFinalizer u (finalizerName c) = false ->
  preserves R (patchFinalizer u (finalizerName c) (o_finalizers u ++ [finalizerName c])).

Lemma reconcileProvision_preserves : preserves R (reconcileProvision c u).
Proof.
  unfold reconcileProvision.
  apply preserves_bind; [typeclasses eauto .. | exact Hprovision |]. intros [e|].
  - apply HdeferStatus.
  - apply preserves_bind; [typeclasses eauto .. | apply HupdateStatus | intros; apply HpatchStatus].
Qed.

Lemma Reconcile_preserves : preserves R (Reconcile c u).
Proof.
  unfold Reconcile.
  destruct (IsZero (o_deletionTimestamp u)) eqn:Hz;
    destruct (containsFinalizer u (finalizerName c)) eqn:Hf; simpl.
  - apply reconcileProvision_preserves.
  - apply preserves_bind; [typeclasses eauto .. | apply Hadd; reflexivity |]. intros [e|].
    + apply HdeferStatus.
    + apply preserves_bind; [typeclasses eauto .. | apply HupdateStatus | intros].
      apply preserves_bind; [typeclasses eauto .. | apply HpatchStatus | intros].
      apply reconcileProvision_preserves.
  - apply preserves_bind; [typeclasses eauto .. | exact Hcleanup |]. intros [e|].
    + apply HdeferStatus.
    + apply preserves_bind; [typeclasses eauto .. | apply Hremove; reflexivity |]. intros [e|].
      * apply HdeferStatus.
      * apply preserves_ret; typeclasses eauto.
  - apply preserves_ret; typeclasses eauto.
Qed.

End ReconcilePass.

(** ** C6: the finalizer lists the controller writes *)

(** A finalizer write holds the managed token at most once and only tokens
    from [allowed]. *)
Definition writesOk (F : string) (allowed : list string) (ev : Event) : Prop :=
  match ev with
  | EvPatchFinalizers _ fs _ => (count_occ string_dec fs F <= 1)%nat /\ incl fs allowed
  | _ => True
  end.

(** Every object in the store holds only tokens from [U]. *)
Definition tokensWithin (U : list string) (w : World) : Prop :=
  forall k o, store w !! k = Some o -> incl (o_finalizers o) U.

(** A sequence of passes, one per dequeued key. *)
Fixpoint runKeys (c : Controller) (keys : list string) (w : World) : World :=
  match keys with
  | [] => w
  | key :: rest => runKeys c rest (snd (reconcileByKey c key w))
  end.

Lemma apiPatchFinalizers_event k fs w :
  trace (snd (apiPatchFinalizers k fs w)) =
    trace w ++ [EvPatchFinalizers k fs (fst (apiPatchFinalizers k fs w))].
Proof.
  unfold apiPatchFinalizers, bind, takeFault, log, ret.
  destruct (inj w) as [|[e|] r]; simpl; [destruct (store w !! k) | | destruct (store w !! k)];
    reflexivity.
Qed.

Lemma patchFinalizer_trace (P : Event -> Prop) obj F fs :
  (forall x, P (EvPatchFinalizers (objKey obj) fs x)) ->
  preserves (extends P) (patchFinalizer obj F fs).
Proof.
  intros HP w. unfold patchFinalizer, bind at 1.
  pose proof (apiPatchFinalizers_event (objKey obj) fs w) as Ht.
  destruct (apiPatchFinalizers (objKey obj) fs w) as [x w1]. simpl in Ht.
  exists [EvPatchFinalizers (objKey obj) fs x].
  destruct x; simpl; (split; [exact Ht | repeat constructor; apply HP]).
Qed.

Lemma statusOnly_writesOk F allowed e : statusOnly e -> writesOk F allowed e.
Proof. destruct e; simpl; tauto. Qed.

Lemma count_occ_removeString (l : list string) (F : string) :
  count_occ string_dec (removeString l F) F = 0%nat.
Proof.
  unfold removeString. induction l as [|x l IH]; simpl; [reflexivity |].
  destruct (String.eqb_spec x F) as [->|Hne]; simpl; [exact IH |].
  destruct (string_dec x F); [contradiction | exact IH].
Qed.

Lemma incl_removeString (l : list string) (F : string) : incl (removeString l F) l.
Proof.
  intros x Hx. unfold removeString in Hx. apply filter_In in Hx. tauto.
Qed.

Lemma count_occ_append_absent (l : list string) (F : string) :
  existsb (String.eqb F) l = false -> count_occ string_dec (l ++ [F]) F = 1%nat.
Proof.
  intros H. rewrite count_occ_app. simpl. destruct (string_dec F F); [| contradiction].
  rewrite (proj1 (count_occ_not_In string_dec l F)); [reflexivity |].
  intros Hin. apply (existsb_eqb_In F l) in Hin. congruence.
Qed.

(** The finalizer writes of one pass on the fetched object [u]. *)
Lemma Reconcile_writesOk c u :
  preserves (extends (writesOk (finalizerName c) (finalizerName c :: o_finalizers u)))
            (Reconcile c u).
Proof.
  apply Reconcile_preserves; try typeclasses eauto.
  - intros e. eapply extends_mono; [apply statusOnly_writesOk | apply deferStatus_trace].
  - intros b e. eapply extends_mono; [apply statusOnly_writesOk | apply updateGenericStatus_trace].
  - intros st. eapply extends_mono; [apply statusOnly_writesOk | apply patchStatusLoop_trace].
  - apply runCap_trace; intros; exact I.
  - apply runCap_trace; intros; exact I.
  - intros _ _. apply patchFinalizer_trace. intros x. simpl. split.
    + rewrite count_occ_removeString. lia.
    + intros t Ht. right. apply (incl_removeString _ _ _ Ht).
  - intros _ Hf. apply patchFinalizer_trace. intros x. simpl. split.
    + rewrite count_occ_append_absent; [lia |]. exact Hf.
    + intros t Ht. apply in_app_or in Ht. destruct Ht as [Ht|[<-|[]]]; [right | left]; auto.
Qed.

Definition keepsTokens (U : list string) (w w' : World) : Prop :=
  tokensWithin U w -> tokensWithin U w'.

#[local] Instance keepsTokens_refl U : Reflexive (keepsTokens U).
Proof. intros w H. exact H. Qed.
#[local] Instance keepsTokens_trans U : Transitive (keepsTokens U).
Proof. intros x y z H1 H2 H. apply H2, H1, H. Qed.

Lemma sameFinalizers_keepsTokens U w w' : sameFinalizers w w' -> keepsTokens U w w'.
Proof.
  intros Hf Hw k o Ho. specialize (Hf k). rewrite Ho in Hf. simpl in Hf.
  destruct (store w !! k) as [o0|] eqn:E; [| discriminate]. simpl in Hf.
  injection Hf as Hf. rewrite Hf. apply (Hw k o0 E).
Qed.

Lemma preserves_keepsTokens U {A} (m : M A) :
  preserves sameFinalizers m -> preserves (keepsTokens U) m.
Proof. intros H w. apply sameFinalizers_keepsTokens, H. Qed.

Lemma apiPatchFinalizers_keepsTokens U k fs :
  incl fs U -> preserves (keepsTokens U) (apiPatchFinalizers k fs).
Proof.
  intros Hfs. unfold apiPatchFinalizers.
  apply preserves_bind; [typeclasses eauto .. |
    apply preserves_keepsTokens; intros w; apply sameStore_finalizers, takeFault_store |].
  intros [e|].
  - apply preserves_keepsTokens. intros w k'. reflexivity.
  - intros w Hw. destruct (store w !! k) as [o|] eqn:E; simpl; [| exact Hw].
    intros k' o' Ho'. simpl in Ho'.
    destruct (negb (IsZero (o_deletionTimestamp o)) && bool_decide (fs = [])).
    + destruct (decide (k = k')) as [<-|Hne].
      * rewrite lookup_delete_eq in Ho'. discriminate.
      * rewrite lookup_delete_ne in Ho' by exact Hne. apply (Hw k' o' Ho').
    + destruct (decide (k = k')) as [<-|Hne].
      * rewrite lookup_insert_eq in Ho'. injection Ho' as <-. exact Hfs.
      * rewrite lookup_insert_ne in Ho' by exact Hne. apply (Hw k' o' Ho').
Qed.

Lemma patchFinalizer_keepsTokens U obj F fs :
  incl fs U -> preserves (keepsTokens U) (patchFinalizer obj F fs).
Proof.
  intros Hfs. unfold patchFinalizer.
  apply preserves_bind; [typeclasses eauto .. | apply apiPatchFinalizers_keepsTokens, Hfs |].
  intros [e|]; apply preserves_ret; typeclasses eauto.
Qed.

Lemma Reconcile_keepsTokens U c u :
  incl (finalizerName c :: o_finalizers u) U -> preserves (keepsTokens U) (Reconcile c u).
Proof.
  intros HU. apply Reconcile_preserves; try typeclasses eauto.
  - intros e. apply preserves_keepsTokens, deferStatus_finalizers.
  - intros b e. apply preserves_keepsTokens, updateGenericStatus_finalizers.
  - intros st. apply preserves_keepsTokens, patchStatusLoop_finalizers.
  - apply preserves_keepsTokens. intros w. apply sameStore_finalizers, runCap_store.
  - apply preserves_keepsTokens. intros w. apply sameStore_finalizers, runCap_store.
  - intros _ _. apply patchFinalizer_keepsTokens.
    intros t Ht. apply HU. right. apply (incl_removeString _ _ _ Ht).
  - intros _ _. apply patchFinalizer_keepsTokens.
    intros t Ht. apply HU. apply in_app_or in Ht. destruct Ht as [Ht|[<-|[]]];
      [right; exact Ht | left; reflexivity].
Qed.

Lemma apiGet_found k w u w1 : apiGet k w = (inl u, w1) -> store w !! k = Some u.
Proof.
  unfold apiGet, bind, takeFault, log, ret. destruct (inj w) as [|[e|] r]; simpl.
  - destruct (store w !! k); intros H; inversion H; reflexivity.
  - intros H; inversion H.
  - destruct (store w !! k); intros H; inversion H; reflexivity.
Qed.

Lemma reconcileByKey_tokens U c key w :
  In (finalizerName c) U -> tokensWithin U w ->
  extends (writesOk (finalizerName c) U) w (snd (reconcileByKey c key w)) /\
  tokensWithin U (snd (reconcileByKey c key w)).
Proof.
  intros HF Hw. unfold reconcileByKey.
  destruct (SplitMetaNamespaceKey key) as [k|]; [| split; [reflexivity | exact Hw]].
  unfold bind.
  pose proof (apiGet_store k w) as Hs. pose proof (apiGet_trace k w) as Ht.
  destruct (apiGet k w) as [[u|e] w1] eqn:E; simpl in Hs, Ht; unfold sameStore in Hs.
  - assert (Hw1 : tokensWithin U w1) by (intros k' o; rewrite Hs; apply Hw).
    assert (HU : incl (finalizerName c :: o_finalizers u) U).
    { intros t [<-|Ht']; [exact HF | apply (Hw k u (apiGet_found _ _ _ _ E)), Ht']. }
    split.
    + transitivity w1.
      * apply (extends_weaken statusOnly); [apply statusOnly_writesOk | exact Ht].
      * refine (extends_weaken _ _ _ _ _ (Reconcile_writesOk c u w1)).
        intros ev Hev. destruct ev; simpl in *; try exact I.
        destruct Hev as [H1 H2]. split; [exact H1 | intros t Ht0; apply HU, H2, Ht0].
    + apply (Reconcile_keepsTokens U c u HU w1 Hw1).
  - assert (Hw1 : tokensWithin U w1) by (intros k' o; rewrite Hs; apply Hw).
    assert (Hx : extends (writesOk (finalizerName c) U) w w1).
    { destruct Ht as [evs [H1 H2]]. exists evs. split; [exact H1 |].
      eapply Forall_impl; [exact H2 | apply statusOnly_writesOk]. }
    destruct e; simpl; split; assumption.
Qed.

Lemma runKeys_tokens U c keys w :
  In (finalizerName c) U -> tokensWithin U w ->
  extends (writesOk (finalizerName c) U) w (runKeys c keys w) /\
  tokensWithin U (runKeys c keys w).
Proof.
  revert w. induction keys as [|key rest IH]; intros w HF Hw; simpl.
  - split; [reflexivity | exact Hw].
  - destruct (reconcileByKey_tokens U c key w HF Hw) as [H1 H2].
    destruct (IH _ HF H2) as [H3 H4]. split; [etransitivity; eassumption | exact H4].
Qed.

(** C6: every finalizer list the controller writes holds its managed token
    at most once and, besides it, only tokens of the object it fetched; over
    any sequence of passes (one per dequeued key, under any injected API
    faults) starting from a store whose objects hold only tokens of [U] (with
    the managed token in [U]), every written list holds the managed token at
    most once and only tokens of [U], and the store keeps that property: the
    controller never introduces a token other than its own. *)
Theorem finalizer_writes_ok (c : Controller) :
  (forall (u : Obj) (w : World),
     extends (writesOk (finalizerName c) (finalizerName c :: o_finalizers u))
             w (snd (Reconcile c u w))) /\
  (forall (U keys : list string) (w : World),
     In (finalizerName c) U -> tokensWithin U w ->
     extends (writesOk (finalizerName c) U) w (runKeys c keys w) /\
     tokensWithin U (runKeys c keys w)).
Proof.
  split.
  - intros u w. apply Reconcile_writesOk.
  - intros U keys w. apply runKeys_tokens.
Qed.

(** ** C1: cleanup gates the removal of the finalizer *)

Lemma deferStatus_facts u e w :
  let '(r, w') := deferStatus u e w in
  r = Some e /\ sameFinalizers w w' /\ sameSecrets w w' /\ extends statusOnly w w'.
Proof.
  pose proof (deferStatus_result u e w) as H1. pose proof (deferStatus_finalizers u e w) as H2.
  pose proof (deferStatus_secrets u e w) as H3. pose proof (deferStatus_trace u e w) as H4.
  destruct (deferStatus u e w) as [r w']. simpl in *. auto.
Qed.

(** C1: on an object being deleted that holds the managed finalizer, the
    first thing [Reconcile] does is call the cleanup capability (only the
    capability's own calls precede its completion); if cleanup fails, no
    finalizer patch is issued afterwards (only the status is fetched and
    written), the finalizer lists in the store are unchanged, and the
    wrapped cleanup error is returned (so the key is requeued); if cleanup
    succeeds, the next call is the patch writing the list without the
    token, and the pass succeeds exactly when that patch does. *)
Theorem Reconcile_cleanup_gates_finalizer_removal (c : Controller) (u : Obj) (w : World)
    (Hdel : IsZero (o_deletionTimestamp u) = false)
    (Hfin : containsFinalizer u (finalizerName c) = true) :
  let '(res, s1, calls) := cleanupFunc c u (secrets w) in
  let '(r, w') := Reconcile c u w in
  exists evs, trace w' = trace w ++ map EvRemote calls ++ EvCleanup (objKey u) res :: evs /\
  match res with
  | Some e => r = Some (Wrapped "cleanup failed: " e) /\ Forall statusOnly evs /\
              (forall k, o_finalizers <$> store w' !! k = o_finalizers <$> store w !! k)
  | None => exists x evs',
              evs = EvPatchFinalizers (objKey u)
                      (removeString (o_finalizers u) (finalizerName c)) x :: evs' /\
              (x = None -> r = None) /\ (x <> None -> r <> None)
  end.
Proof.
  unfold Reconcile. rewrite Hdel, Hfin. simpl.
  unfold bind at 1, runCap.
  destruct (cleanupFunc c u (secrets w)) as [[res s1] calls] eqn:Ec.
  set (w1 := emit (EvCleanup (objKey u) res)
               (mkWorld (store w) s1 (inj w) (now w) (trace w ++ map EvRemote calls))).
  assert (Ht1 : trace w1 = trace w ++ map EvRemote calls ++ [EvCleanup (objKey u) res])
    by (simpl; rewrite app_assoc; reflexivity).
  destruct res as [e|].
  - pose proof (deferStatus_facts u (Wrapped "cleanup failed: " e) w1) as Hd.
    destruct (deferStatus u _ w1) as [r w'].
    destruct Hd as [Hr [Hf [_ [evs [Ht Hev]]]]].
    exists evs. rewrite Ht, Ht1, <- !app_assoc. split; [reflexivity |].
    split; [exact Hr | split; [exact Hev |]].
    intros k. rewrite Hf. reflexivity.
  - unfold bind at 1, patchFinalizer, bind at 1.
    pose proof (apiPatchFinalizers_event (objKey u)
                  (removeString (o_finalizers u) (finalizerName c)) w1) as Hp.
    destruct (apiPatchFinalizers (objKey u) _ w1) as [x w2]. simpl in Hp.
    destruct x as [e|]; simpl.
    + pose proof (deferStatus_facts u (Wrapped "finalizer removal patch failed: "
                    (Wrapped ("failed to patch resource " +:+ o_name u +:+ "/" +:+
                              o_namespace u +:+ " with finalizer " +:+
                              finalizerName c +:+ ": ") (ApiError e))) w2) as Hd.
      destruct (deferStatus u _ w2) as [r w'].
      destruct Hd as [Hr [_ [_ [evs [Ht _]]]]].
      exists (EvPatchFinalizers (objKey u) (removeString (o_finalizers u) (finalizerName c))
                (Some e) :: evs).
      rewrite Ht, Hp, <- !app_assoc. split; [reflexivity |].
      eexists _, _. split; [reflexivity |]. rewrite Hr.
      split; [discriminate | intros _; discriminate].
    + exists [EvPatchFinalizers (objKey u) (removeString (o_finalizers u) (finalizerName c)) None].
      rewrite Hp, <- !app_assoc. split; [reflexivity |].
      eexists _, []. split; [reflexivity |]. split; [reflexivity | intros H; contradiction].
Qed.

Lemma Reconcile_cleanup_gates_finalizer_removal_witness :
  let u := mkObj "foo" "ns1" 1 (Some 5) ["fin"%string] (mkSpec "c1" "argocd" "default") None in
  let c := mkController "fin" (fun _ _ s => (None, s, [])) (fun _ s => (Some (Plain "boom"), s, []))
             [] in
  IsZero (o_deletionTimestamp u) = false /\ containsFinalizer u (finalizerName c) = true /\
  let w := mkWorld (<[objKey u := u]> ∅) ∅ [] 0 [] in
  let '(res, s1, calls) := cleanupFunc c u (secrets w) in
  let '(r, w') := Reconcile c u w in
  exists evs, trace w' = trace w ++ map EvRemote calls ++ EvCleanup (objKey u) res :: evs /\
  match res with
  | Some e => r = Some (Wrapped "cleanup failed: " e) /\ Forall statusOnly evs /\
              (forall k, o_finalizers <$> store w' !! k = o_finalizers <$> store w !! k)
  | None => exists x evs',
              evs = EvPatchFinalizers (objKey u)
                      (removeString (o_finalizers u) (finalizerName c)) x :: evs' /\
              (x = None -> r = None) /\ (x <> None -> r <> None)
  end.
Proof.
  intros u c. split; [reflexivity | split; [reflexivity |]].
  intros w. exact (Reconcile_cleanup_gates_finalizer_removal c u w eq_refl eq_refl).
Defined.

(** ** C9: the status written when provisioning fails *)

(** The store files each object under its own namespace and name. *)
Definition storeWf (w : World) : Prop :=
  forall k o, store w !! k = Some o -> objKey o = k.

Lemma patchStatus_first_event obj st w :
  exists x evs, trace (snd (patchStatus obj st w)) =
                trace w ++ EvApplyStatus (objKey obj) st x :: evs.
Proof.
  pose proof (patchStatusLoop_shape obj st 0 maxRetries None w) as H.
  unfold patchStatus. destruct (patchStatusLoop obj st 0 maxRetries None w) as [r w'].
  destruct H as [rs [tl [Ht [_ Hc]]]]. simpl. rewrite Ht.
  destruct rs as [|e rs].
  - destruct Hc as [[Hl _] | [_ [res [-> _]]]]; [discriminate |].
    exists res, []. reflexivity.
  - exists (Some e), (EvSleep 100 :: retryEvents (objKey obj) st rs ++ tl). reflexivity.
Qed.

(** The deferred handler after a failed provisioning: the re-fetch, then,
    only if it succeeded, a status apply of the Failed status. *)
Lemma deferStatus_shape u err w :
  storeWf w ->
  let '(r, w') := deferStatus u err w in
  r = Some err /\
  exists evs, trace w' = trace w ++ evs /\
  ((exists x, evs = [EvGet (objKey u) (Some x)]) \/
   (exists st x evs', evs = EvGet (objKey u) None :: EvApplyStatus (objKey u) st x :: evs' /\
      st_state st = "Failed"%string /\ st_ready st = false /\
      st_message st = ("Reconciliation failed: " +:+ errorString err)%string)).
Proof.
  intros Hwf. unfold deferStatus, bind at 1, apiGet, bind at 1, takeFault.
  destruct (inj w) as [|[x|] rest] eqn:Ei; simpl.
  - destruct (store w !! objKey u) as [o|] eqn:Es; simpl.
    + pose proof (Hwf _ _ Es) as Hk.
      unfold bind, updateGenericStatus, Now, bind, ret. simpl.
      match goal with |- context [patchStatus o ?st ?w1] =>
        destruct (patchStatus_first_event o st w1) as [x [evs Hp]];
        destruct (patchStatus o st w1) as [r w'] end.
      simpl in Hp. split; [reflexivity |].
      rewrite Hp, <- app_assoc. eexists. split; [reflexivity |]. right.
      rewrite Hk. do 3 eexists. split; [reflexivity |].
      simpl. split; [reflexivity | split; reflexivity].
    + split; [reflexivity |]. eexists. split; [reflexivity |]. left. eexists; reflexivity.
  - unfold log, bind, ret. simpl. split; [reflexivity |].
    eexists. split; [reflexivity |]. left. eexists; reflexivity.
  - destruct (store w !! objKey u) as [o|] eqn:Es; simpl.
    + pose proof (Hwf _ _ Es) as Hk.
      unfold bind, updateGenericStatus, Now, bind, ret. simpl.
      match goal with |- context [patchStatus o ?st ?w1] =>
        destruct (patchStatus_first_event o st w1) as [x [evs Hp]];
        destruct (patchStatus o st w1) as [r w'] end.
      simpl in Hp. split; [reflexivity |].
      rewrite Hp, <- app_assoc. eexists. split; [reflexivity |]. right.
      rewrite Hk. do 3 eexists. split; [reflexivity |].
      simpl. split; [reflexivity | split; reflexivity].
    + split; [reflexivity |]. eexists. split; [reflexivity |]. left. eexists; reflexivity.
Qed.

(** C9 (counterexample): provisioning fails on a live object carrying the
    finalizer, and the deferred re-fetch of the object fails with a
    transient API error.  Reconcile returns the wrapped provisioning error,
    and the trace of the pass holds no status write at all. *)
Lemma Reconcile_provision_failure_no_status_counterexample :
  let u := mkObj "foo" "ns1" 1 None ["fin"%string] (mkSpec "c1" "argocd" "default") None in
  let c := mkController "fin" (fun _ _ s => (Some (Plain "boom"), s, []))
             (fun _ s => (None, s, [])) [] in
  let w := mkWorld (<[objKey u := u]> ∅) ∅ [Some (OtherApiErr "request timed out")] 0 [] in
  fst (Reconcile c u w) = Some (Wrapped "provisioning failed: " (Plain "boom")) /\
  trace (snd (Reconcile c u w)) =
    [EvProvision (objKey u) (Some (Plain "boom"));
     EvGet (objKey u) (Some (OtherApiErr "request timed out"))] /\
  forall k st x, ~ In (EvApplyStatus k st x) (trace (snd (Reconcile c u w))).
Proof.
  intros u c w. vm_compute. split; [reflexivity | split; [reflexivity |]].
  intros k st x H. simpl in H. intuition discriminate.
Qed.

(** C9 (amended): when the provision capability of a pass returns an error
    [e], Reconcile returns [provisioning failed: e] for requeue.  After the
    capability's remote calls and its result, the deferred handler re-fetches
    the object: if the re-fetch fails (NotFound or any other API error) no
    status write is attempted; if it succeeds, the next event is a status
    apply on the object with state "Failed", ready false and message
    "Reconciliation failed: provisioning failed: " followed by the cause
    (whether that apply sticks is the retry policy of [patchStatus]).  On a
    live object that carries the finalizer this is the whole of Reconcile. *)
Theorem Reconcile_provision_failure_status (c : Controller) (u : Obj) (w : World)
    (e : error) (s1 : Secrets) (calls : list RCall)
    (Hwf : storeWf w)
    (Hp : provisionFunc c u (namespaces c) (secrets w) = (Some e, s1, calls)) :
  (IsZero (o_deletionTimestamp u) = true ->
   containsFinalizer u (finalizerName c) = true ->
   Reconcile c u w = reconcileProvision c u w) /\
  let '(r, w') := reconcileProvision c u w in
  r = Some (Wrapped "provisioning failed: " e) /\
  exists evs, trace w' = trace w ++ map EvRemote calls ++ EvProvision (objKey u) (Some e) :: evs /\
  ((exists x, evs = [EvGet (objKey u) (Some x)]) \/
   (exists st x evs', evs = EvGet (objKey u) None :: EvApplyStatus (objKey u) st x :: evs' /\
      st_state st = "Failed"%string /\ st_ready st = false /\
      st_message st = ("Reconciliation failed: provisioning failed: " +:+ errorString e)%string)).
Proof.
  split.
  - intros Hz Hf. unfold Reconcile. rewrite Hz, Hf. reflexivity.
  - unfold reconcileProvision, bind at 1, runCap. rewrite Hp.
    set (w1 := emit _ _).
    assert (Hwf1 : storeWf w1) by exact Hwf.
    pose proof (deferStatus_shape u (Wrapped "provisioning failed: " e) w1 Hwf1) as H.
    destruct (deferStatus u (Wrapped "provisioning failed: " e) w1) as [r w'].
    destruct H as [Hr [evs [Ht Hc]]]. split; [exact Hr |].
    exists evs. split.
    + rewrite Ht. unfold w1, emit. simpl. rewrite <- !app_assoc. reflexivity.
    + exact Hc.
Qed.

Lemma Reconcile_provision_failure_status_witness :
  let u := mkObj "foo" "ns1" 1 None ["fin"%string] (mkSpec "c1" "argocd" "default") None in
  let c := mkController "fin" (fun _ _ s => (Some (Plain "boom"), s, []))
             (fun _ s => (None, s, [])) [] in
  let w := mkWorld (<[objKey u := u]> ∅) ∅ [] 0 [] in
  storeWf w /\ provisionFunc c u (namespaces c) (secrets w) = (Some (Plain "boom"), ∅, []) /\
  ((IsZero (o_deletionTimestamp u) = true ->
   containsFinalizer u (finalizerName c) = true ->
   Reconcile c u w = reconcileProvision c u w) /\
  let '(r, w') := reconcileProvision c u w in
  r = Some (Wrapped "provisioning failed: " (Plain "boom")) /\
  exists evs, trace w' = trace w ++ map EvRemote [] ++ EvProvision (objKey u) (Some (Plain "boom")) :: evs /\
  ((exists x, evs = [EvGet (objKey u) (Some x)]) \/
   (exists st x evs', evs = EvGet (objKey u) None :: EvApplyStatus (objKey u) st x :: evs' /\
      st_state st = "Failed"%string /\ st_ready st = false /\
      st_message st = ("Reconciliation failed: provisioning failed: " +:+ errorString (Plain "boom"))%string))).
Proof.
  intros u c w.
  assert (Hwf : storeWf w).
  { intros k o Hk. unfold w in Hk. simpl in Hk.
    destruct (decide (k = objKey u)) as [->|Hne].
    - rewrite lookup_insert_eq in Hk. injection Hk as <-. reflexivity.
    - rewrite lookup_insert_ne, lookup_empty in Hk by congruence. discriminate. }
  split; [exact Hwf | split; [reflexivity |]].
  exact (Reconcile_provision_failure_status c u w (Plain "boom") ∅ [] Hwf eq_refl).
Defined.

(** ** C5: the first pass over an object without the finalizer *)

(** C5 (counterexample): a live object without the finalizer, no API
    fault, and a provisioning that succeeds.  The pass adds the finalizer
    and writes Pending, but falls through to provisioning in the same pass,
    so at its end the status of the stored object is Ready. *)
Lemma Reconcile_first_pass_pending_counterexample :
  let u := mkObj "foo" "ns1" 1 None ["other"%string] (mkSpec "c1" "argocd" "default") None in
  let c := mkController "fin" (fun _ _ s => (None, s, []))
             (fun _ s => (None, s, [])) [] in
  let w := mkWorld (<[objKey u := u]> ∅) ∅ [] 0 [] in
  IsZero (o_deletionTimestamp u) = true /\ containsFinalizer u (finalizerName c) = false /\
  fst (Reconcile c u w) = None /\
  (o_finalizers <$> (store (snd (Reconcile c u w)) !! objKey u)) = Some ["other"; "fin"]%string /\
  (st_state <$> (store (snd (Reconcile c u w)) !! objKey u ≫= o_status)) = Some "Ready"%string.
Proof. vm_compute. repeat split; reflexivity. Qed.

(** C5 (amended): on a live object without the finalizer, stored as
    fetched, and with no API fault in the pass, Reconcile appends the
    finalizer token once, writes the Pending status, and then provisions in
    the same pass.  At the end of the pass the stored object carries the
    token exactly once and its status is Ready when provisioning succeeded,
    Failed (with the cause) when it failed. *)
Theorem Reconcile_first_pass (c : Controller) (u : Obj) (w : World)
    (Hz : IsZero (o_deletionTimestamp u) = true)
    (Hf : containsFinalizer u (finalizerName c) = false)
    (Hst : store w !! objKey u = Some u)
    (Hinj : inj w = []) :
  let F := finalizerName c in
  let '(res, s1, calls) := provisionFunc c u (namespaces c) (secrets w) in
  let '(r, w') := Reconcile c u w in
  secrets w' = s1 /\
  (exists stP evs, st_state stP = "Pending"%string /\
     trace w' = trace w ++ EvPatchFinalizers (objKey u) (o_finalizers u ++ [F]) None ::
                EvApplyStatus (objKey u) stP None :: map EvRemote calls ++
                EvProvision (objKey u) res :: evs) /\
  exists o', store w' !! objKey u = Some o' /\
    o_finalizers o' = o_finalizers u ++ [F] /\
    count_occ string_dec (o_finalizers o') F = 1%nat /\
    match res with
    | None => r = None /\ option_map st_state (o_status o') = Some "Ready"%string
    | Some e => r = Some (Wrapped "provisioning failed: " e) /\
        option_map st_state (o_status o') = Some "Failed"%string /\
        option_map st_message (o_status o') =
          Some ("Reconciliation failed: provisioning failed: " +:+ errorString e)%string
    end.
Proof.
  intros F. unfold F.
  destruct w as [st sec inj0 nw tr]. simpl in Hst, Hinj. subst inj0.
  unfold Reconcile. cbv zeta. rewrite Hz, Hf. simpl.
  unfold patchFinalizer, apiPatchFinalizers, bind, takeFault. simpl.
  rewrite Hst. simpl. rewrite Hz. simpl.
  unfold updateGenericStatus, Now, bind, ret. simpl.
  unfold patchStatus, patchStatusLoop, apiApplyStatus, bind, takeFault. simpl.
  rewrite lookup_insert_eq. simpl.
  unfold reconcileProvision, runCap, bind. simpl.
  destruct (provisionFunc c u (namespaces c) sec) as [[res s1] calls] eqn:Ep.
  destruct res as [e|].
  - unfold deferStatus, apiGet, bind, takeFault. simpl.
    rewrite lookup_insert_eq. simpl.
    unfold updateGenericStatus, Now, bind, ret. simpl.
    unfold patchStatus, patchStatusLoop, apiApplyStatus, bind, takeFault. simpl.
    rewrite lookup_insert_eq. simpl.
    split; [reflexivity |]. split.
    + do 2 eexists. split; cycle 1; [rewrite <- !app_assoc; reflexivity | reflexivity].
    + eexists. rewrite lookup_insert_eq. split; [reflexivity |].
      split; [reflexivity |]. split; [apply count_occ_append_absent; exact Hf |].
      repeat split; reflexivity.
  - unfold updateGenericStatus, Now, bind, ret. simpl.
    unfold patchStatus, patchStatusLoop, apiApplyStatus, bind, takeFault. simpl.
    rewrite lookup_insert_eq. simpl.
    split; [reflexivity |]. split.
    + do 2 eexists. split; cycle 1; [rewrite <- !app_assoc; reflexivity | reflexivity].
    + eexists. rewrite lookup_insert_eq. split; [reflexivity |].
      split; [reflexivity |]. split; [apply count_occ_append_absent; exact Hf |].
      repeat split; reflexivity.
Qed.

Lemma Reconcile_first_pass_witness :
  let u := mkObj "foo" "ns1" 1 None ["other"%string] (mkSpec "c1" "argocd" "default") None in
  let c := mkController "fin" (fun _ _ s => (None, s, []))
             (fun _ s => (None, s, [])) [] in
  let w := mkWorld (<[objKey u := u]> ∅) ∅ [] 0 [] in
  IsZero (o_deletionTimestamp u) = true /\ containsFinalizer u (finalizerName c) = false /\
  store w !! objKey u = Some u /\ inj w = [] /\
  let F := finalizerName c in
  let '(res, s1, calls) := provisionFunc c u (namespaces c) (secrets w) in
  let '(r, w') := Reconcile c u w in
  secrets w' = s1 /\
  (exists stP evs, st_state stP = "Pending"%string /\
     trace w' = trace w ++ EvPatchFinalizers (objKey u) (o_finalizers u ++ [F]) None ::
                EvApplyStatus (objKey u) stP None :: map EvRemote calls ++
                EvProvision (objKey u) res :: evs) /\
  exists o', store w' !! objKey u = Some o' /\
    o_finalizers o' = o_finalizers u ++ [F] /\
    count_occ string_dec (o_finalizers o') F = 1%nat /\
    match res with
    | None => r = None /\ option_map st_state (o_status o') = Some "Ready"%string
    | Some e => r = Some (Wrapped "provisioning failed: " e) /\
        option_map st_state (o_status o') = Some "Failed"%string /\
        option_map st_message (o_status o') =
          Some ("Reconciliation failed: provisioning failed: " +:+ errorString e)%string
    end.
Proof.
  intros u c w. split; [reflexivity | split; [reflexivity | split; [| split; [reflexivity |]]]].
  - simpl. apply lookup_insert_eq.
  - exact (Reconcile_first_pass c u w eq_refl eq_refl (lookup_insert_eq _ _ _) eq_refl).
Defined.

(** ** C2: repeated passes over one key *)

(** The parts of an object the capabilities look at. *)
Definition view (o : Obj) :=
  (o_name o, o_namespace o, o_generation o, o_deletionTimestamp o, o_spec o).

(** A status without its [lastUpdated] timestamp. *)
Definition stripStatus (st : Status) : string * string * bool :=
  (st_state st, st_message st, st_ready st).

Definition obsObj (o : Obj) :=
  (view o, o_finalizers o, option_map stripStatus (o_status o)).

(** The status map [updateGenericStatus] builds, at time 0. *)
Definition genStatus (o : Obj) (success : bool) (err : option error) : Status :=
  fst (updateGenericStatus o success err (mkWorld ∅ ∅ [] 0 [])).

(** The effect of one fault-free pass of [Reconcile] on the stored object
    of its key and on the secrets. *)
Definition faultFreePass (c : Controller) (mo : option Obj) (s : Secrets)
  : option Obj * Secrets :=
  match mo with
  | None => (None, s)
  | Some u =>
      let F := finalizerName c in
      if negb (IsZero (o_deletionTimestamp u)) then
        if containsFinalizer u F then
          let '(res, s1, _) := cleanupFunc c u s in
          match res with
          | Some e =>
              (Some (set_status (genStatus u false (Some (Wrapped "cleanup failed: " e))) u), s1)
          | None =>
              let fs := removeString (o_finalizers u) F in
              (if bool_decide (fs = []) then None else Some (set_finalizers fs u), s1)
          end
        else (Some u, s)
      else
        let u1 := if containsFinalizer u F then u
                  else set_status (genStatus u false None)
                                  (set_finalizers (o_finalizers u ++ [F]) u) in
        let '(res, s1, _) := provisionFunc c u (namespaces c) s in
        match res with
        | Some e =>
            (Some (set_status (genStatus u false (Some (Wrapped "provisioning failed: " e))) u1), s1)
        | None => (Some (set_status (genStatus u true None) u1), s1)
        end
  end.

Lemma objKey_set_status st o : objKey (set_status st o) = objKey o.
Proof. reflexivity. Qed.

Lemma objKey_set_finalizers fs o : objKey (set_finalizers fs o) = objKey o.
Proof. reflexivity. Qed.

Ltac exec :=
  repeat (unfold Reconcile, reconcileProvision, deferStatus, patchStatus, patchFinalizer,
            apiGet, apiApplyStatus, apiPatchFinalizers, updateGenericStatus, Now, runCap,
            takeFault, bind, ret, log, emit, set_inj, set_now, set_store, sleep, genStatus;
          simpl; rewrite ?objKey_set_status, ?objKey_set_finalizers;
          try rewrite lookup_insert_eq;
          try match goal with H : ?m !! ?k = Some _ |- context [?m !! ?k] => rewrite H end;
          try match goal with H : IsZero ?t = _ |- context [IsZero ?t] => rewrite H end).

Ltac finish_closed :=
  repeat split; try reflexivity;
  try (intros ?k' ?Hne; rewrite ?lookup_insert_ne, ?lookup_delete_ne by congruence;
       reflexivity);
  try (intros ?o' ?Ho'; first [discriminate | injection Ho' as <-; reflexivity]).

Lemma reconcileByKey_closed c key k w :
  SplitMetaNamespaceKey key = Some k -> inj w = [] -> storeWf w ->
  let w' := snd (reconcileByKey c key w) in
  inj w' = [] /\ secrets w' = snd (faultFreePass c (store w !! k) (secrets w)) /\
  option_map obsObj (store w' !! k) =
    option_map obsObj (fst (faultFreePass c (store w !! k) (secrets w))) /\
  (forall k', k' <> k -> store w' !! k' = store w !! k') /\
  (forall o', store w' !! k = Some o' -> objKey o' = k).
Proof.
  intros Hsplit Hinj Hwf.
  destruct w as [st sec inj0 nw tr]. simpl in Hinj. subst inj0.
  unfold reconcileByKey. rewrite Hsplit. unfold bind at 1, apiGet, bind, takeFault. simpl.
  destruct (st !! k) as [u|] eqn:Hk; simpl.
  2: { split; [reflexivity | split; [reflexivity |]]. rewrite Hk.
       split; [reflexivity | split; [reflexivity |]]. intros o' Ho'. congruence. }
  pose proof (Hwf k u Hk) as Hku. simpl in Hku. subst k.
  unfold Reconcile, faultFreePass.
  destruct (IsZero (o_deletionTimestamp u)) eqn:Hz;
    destruct (containsFinalizer u (finalizerName c)) eqn:Hf; simpl.
  - exec. destruct (provisionFunc c u (namespaces c) sec) as [[[e|] s1] calls] eqn:Ep; exec.
    + finish_closed.
    + finish_closed.
  - exec. destruct (provisionFunc c u (namespaces c) sec) as [[[e|] s1] calls] eqn:Ep; exec.
    + finish_closed.
    + finish_closed.
  - exec. destruct (cleanupFunc c u sec) as [[[e|] s1] calls] eqn:Ec; exec.
    + finish_closed.
    + destruct (bool_decide (removeString (o_finalizers u) (finalizerName c) = []));
        simpl; rewrite ?lookup_delete_eq, ?lookup_insert_eq; finish_closed.
  - exec. finish_closed.
Qed.

Lemma existsb_removeString (l : list string) (F : string) :
  existsb (String.eqb F) (removeString l F) = false.
Proof.
  unfold removeString. induction l as [|x l IH]; simpl; [reflexivity |].
  destruct (String.eqb_spec x F) as [->|Hne]; simpl; [exact IH |].
  destruct (String.eqb_spec F x); [congruence | exact IH].
Qed.

Lemma existsb_append_self (l : list string) (F : string) :
  existsb (String.eqb F) (l ++ [F]) = true.
Proof. apply existsb_eqb_In. apply in_or_app. right. left. reflexivity. Qed.

Section Idempotence.

Variable c : Controller.

(** The capabilities look at an object only through its name, namespace,
    generation, deletion timestamp and spec. *)
Hypothesis provision_view : forall o o' ns s,
  view o = view o' -> provisionFunc c o ns s = provisionFunc c o' ns s.
Hypothesis cleanup_view : forall o o' s,
  view o = view o' -> cleanupFunc c o s = cleanupFunc c o' s.
(** Provisioning again on the secrets it left gives the same result and
    leaves them as they are. *)
Hypothesis provision_idem : forall o ns s r s1 calls,
  provisionFunc c o ns s = (r, s1, calls) ->
  exists calls', provisionFunc c o ns s1 = (r, s1, calls').
(** A failing cleanup leaves the secrets as they are. *)
Hypothesis cleanup_fail_keeps : forall o s e s1 calls,
  cleanupFunc c o s = (Some e, s1, calls) -> s1 = s.

Lemma faultFreePass_cong mo mo' s :
  option_map obsObj mo = option_map obsObj mo' ->
  option_map obsObj (fst (faultFreePass c mo s)) =
    option_map obsObj (fst (faultFreePass c mo' s)) /\
  snd (faultFreePass c mo s) = snd (faultFreePass c mo' s).
Proof.
  destruct mo as [[n ns g d fs sp st1]|], mo' as [[n' ns' g' d' fs' sp' st2]|];
    simpl; intros H; try discriminate; [| split; reflexivity].
  injection H as -> -> -> -> -> -> Hst.
  unfold faultFreePass. simpl.
  rewrite (cleanup_view (mkObj n' ns' g' d' fs' sp' st1) (mkObj n' ns' g' d' fs' sp' st2))
    by reflexivity.
  rewrite (provision_view (mkObj n' ns' g' d' fs' sp' st1) (mkObj n' ns' g' d' fs' sp' st2))
    by reflexivity.
  destruct (negb (IsZero d')); unfold containsFinalizer; simpl.
  - destruct (existsb (String.eqb (finalizerName c)) fs').
    + destruct (cleanupFunc c (mkObj n' ns' g' d' fs' sp' st2) s) as [[[e|] s1] calls];
        simpl; [split; reflexivity |].
      destruct (bool_decide (removeString fs' (finalizerName c) = [])); simpl;
        [split; reflexivity |].
      unfold obsObj. simpl. rewrite Hst. split; reflexivity.
    + simpl. unfold obsObj. simpl. rewrite Hst. split; reflexivity.
  - destruct (existsb (String.eqb (finalizerName c)) fs');
      destruct (provisionFunc c (mkObj n' ns' g' d' fs' sp' st2) (namespaces c) s)
        as [[[e|] s1] calls]; simpl; split; reflexivity.
Qed.

Lemma faultFreePass_idem mo s :
  let '(mo1, s1) := faultFreePass c mo s in
  option_map obsObj (fst (faultFreePass c mo1 s1)) = option_map obsObj mo1 /\
  snd (faultFreePass c mo1 s1) = s1.
Proof.
  destruct mo as [[n ns g d fs sp st]|]; [| split; reflexivity].
  unfold faultFreePass at 2. simpl.
  destruct (IsZero d) eqn:Hz; unfold containsFinalizer; simpl.
  - set (u := mkObj n ns g d fs sp st).
    destruct (provisionFunc c u (namespaces c) s) as [[r s1] calls] eqn:Ep.
    destruct (provision_idem _ _ _ _ _ _ Ep) as [calls' Ep'].
    destruct (existsb (String.eqb (finalizerName c)) fs) eqn:Hf.
    + destruct r as [e|]; unfold faultFreePass; simpl; rewrite Hz; unfold containsFinalizer;
        simpl; rewrite Hf; simpl;
        rewrite (provision_view _ u) by reflexivity; rewrite Ep'; split; reflexivity.
    + destruct r as [e|]; unfold faultFreePass; simpl; rewrite Hz; unfold containsFinalizer;
        simpl; rewrite existsb_append_self; simpl;
        rewrite (provision_view _ u) by reflexivity; rewrite Ep'; split; reflexivity.
  - set (u := mkObj n ns g d fs sp st).
    destruct (existsb (String.eqb (finalizerName c)) fs) eqn:Hf.
    + destruct (cleanupFunc c u s) as [[[e|] s1] calls] eqn:Ec.
      * pose proof (cleanup_fail_keeps _ _ _ _ _ Ec) as ->.
        unfold faultFreePass; simpl; rewrite Hz; unfold containsFinalizer; simpl; rewrite Hf.
        simpl. rewrite (cleanup_view _ u) by reflexivity; rewrite Ec. split; reflexivity.
      * destruct (bool_decide (removeString fs (finalizerName c) = [])); [split; reflexivity |].
        unfold faultFreePass; simpl; rewrite Hz; unfold containsFinalizer; simpl.
        rewrite existsb_removeString. split; reflexivity.
    + unfold faultFreePass; simpl; rewrite Hz; unfold containsFinalizer; simpl; rewrite Hf.
      split; reflexivity.
Qed.

(** Two fault-free worlds that agree on the secrets and, at every key, on
    the stored object up to status timestamps. *)
Definition sameObs (w1 w2 : World) : Prop :=
  inj w1 = [] /\ inj w2 = [] /\ storeWf w1 /\ storeWf w2 /\
  secrets w1 = secrets w2 /\
  forall k, option_map obsObj (store w1 !! k) = option_map obsObj (store w2 !! k).

Lemma sameObs_trans w1 w2 w3 : sameObs w1 w2 -> sameObs w2 w3 -> sameObs w1 w3.
Proof.
  intros (H1 & _ & W1 & _ & S1 & O1) (_ & H3 & _ & W3 & S3 & O3).
  repeat split; try assumption; [congruence |]. intros k. rewrite O1. apply O3.
Qed.

Lemma reconcileByKey_step key k w :
  SplitMetaNamespaceKey key = Some k -> inj w = [] -> storeWf w ->
  let w' := snd (reconcileByKey c key w) in
  inj w' = [] /\ storeWf w' /\
  secrets w' = snd (faultFreePass c (store w !! k) (secrets w)) /\
  option_map obsObj (store w' !! k) =
    option_map obsObj (fst (faultFreePass c (store w !! k) (secrets w))) /\
  (forall k', k' <> k -> store w' !! k' = store w !! k').
Proof.
  intros Hs Hi Hw.
  destruct (reconcileByKey_closed c key k w Hs Hi Hw) as (Hi' & Hs' & Ho & Hn & Hk).
  repeat split; try assumption.
  intros k' o Ho'. destruct (decide (k' = k)) as [->|Hne]; [exact (Hk o Ho') |].
  rewrite Hn in Ho' by exact Hne. exact (Hw k' o Ho').
Qed.

Lemma reconcileByKey_sameObs key k w1 w2 :
  SplitMetaNamespaceKey key = Some k -> sameObs w1 w2 ->
  sameObs (snd (reconcileByKey c key w1)) (snd (reconcileByKey c key w2)).
Proof.
  intros Hs (I1 & I2 & W1 & W2 & S & O).
  destruct (reconcileByKey_step key k w1 Hs I1 W1) as (I1' & W1' & S1 & O1 & N1).
  destruct (reconcileByKey_step key k w2 Hs I2 W2) as (I2' & W2' & S2 & O2 & N2).
  destruct (faultFreePass_cong (store w1 !! k) (store w2 !! k) (secrets w1) (O k))
    as [Hc1 Hc2].
  repeat split; try assumption.
  - rewrite S1, S2, Hc2, S. reflexivity.
  - intros k'. destruct (decide (k' = k)) as [->|Hne].
    + rewrite O1, O2, Hc1, S. reflexivity.
    + rewrite N1, N2 by exact Hne. apply O.
Qed.

Lemma reconcileByKey_twice key k w :
  SplitMetaNamespaceKey key = Some k -> inj w = [] -> storeWf w ->
  sameObs (snd (reconcileByKey c key (snd (reconcileByKey c key w))))
          (snd (reconcileByKey c key w)).
Proof.
  intros Hs Hi Hw.
  destruct (reconcileByKey_step key k w Hs Hi Hw) as (I1 & W1 & S1 & O1 & N1).
  set (w1 := snd (reconcileByKey c key w)) in *.
  destruct (reconcileByKey_step key k w1 Hs I1 W1) as (I2 & W2 & S2 & O2 & N2).
  pose proof (faultFreePass_idem (store w !! k) (secrets w)) as Hid.
  destruct (faultFreePass c (store w !! k) (secrets w)) as [mo1 s1] eqn:Ep.
  simpl in S1, O1. destruct Hid as [Hid1 Hid2].
  destruct (faultFreePass_cong (store w1 !! k) mo1 (secrets w1) ltac:(rewrite O1; reflexivity))
    as [Hc1 Hc2].
  repeat split; try assumption.
  - rewrite S2, Hc2, S1, Hid2. reflexivity.
  - intros k'. destruct (decide (k' = k)) as [->|Hne].
    + rewrite O2, Hc1, S1, Hid1, O1. reflexivity.
    + rewrite N2 by exact Hne. reflexivity.
Qed.

(** C2: with no API fault and no other writer, running [reconcileByKey] on
    a key [n + 1] times leaves the same secrets, and at every key the same
    stored object up to status timestamps (same name, namespace,
    generation, deletion timestamp, spec, finalizer list, and status
    state, message and readiness), as running it once.  The capabilities
    look at an object only through its name, namespace, generation,
    deletion timestamp and spec; provisioning is idempotent; and a failing
    cleanup leaves the secrets alone. *)
Theorem reconcileByKey_idempotent (key : string) (w : World) (n : nat)
    (Hinj : inj w = []) (Hwf : storeWf w) :
  let pass := fun w => snd (reconcileByKey c key w) in
  secrets (Nat.iter (S n) pass w) = secrets (pass w) /\
  forall k, option_map obsObj (store (Nat.iter (S n) pass w) !! k) =
            option_map obsObj (store (pass w) !! k).
Proof.
  intros pass.
  destruct (SplitMetaNamespaceKey key) as [k|] eqn:Hs.
  - assert (Hn : forall m, sameObs (Nat.iter (S m) pass w) (pass w)).
    { induction m as [|m IH].
      - destruct (reconcileByKey_step key k w Hs Hinj Hwf) as (I1 & W1 & _).
        repeat split; assumption.
      - apply (sameObs_trans _ (pass (pass w))).
        + exact (reconcileByKey_sameObs key k _ _ Hs IH).
        + exact (reconcileByKey_twice key k w Hs Hinj Hwf). }
    destruct (Hn n) as (_ & _ & _ & _ & HS & HO). split; [exact HS | exact HO].
  - assert (Hp : forall w', pass w' = w').
    { intros w'. unfold pass, reconcileByKey. rewrite Hs. reflexivity. }
    assert (Hi : forall m, Nat.iter m pass w = w).
    { induction m as [|m IH]; [reflexivity |]. simpl. rewrite IH. apply Hp. }
    rewrite Hi, Hp. split; [reflexivity | intros; reflexivity].
Qed.

End Idempotence.

Lemma kubeconfig_name_ne (s : string) :
  (s +:+ "-kubeconfig")%string <> (s +:+ "-argo-cluster")%string.
Proof.
  induction s as [|ch s IH]; simpl.
  - intros H. inversion H.
  - intros H. injection H as H. exact (IH H).
Qed.

Lemma applyArgoCluster_view loadConfig o o' ns s :
  view o = view o' -> applyArgoCluster loadConfig o ns s = applyArgoCluster loadConfig o' ns s.
Proof.
  unfold view. intros H. injection H as _ Hns _ _ Hsp.
  unfold applyArgoCluster. rewrite Hns, Hsp. reflexivity.
Qed.

Lemma applyArgoCluster_idem loadConfig o ns s r s1 calls :
  applyArgoCluster loadConfig o ns s = (r, s1, calls) ->
  exists calls', applyArgoCluster loadConfig o ns s1 = (r, s1, calls').
Proof.
  unfold applyArgoCluster.
  destruct (existsb _ ns) eqn:Hb.
  { intros H. injection H as <- <- <-. eexists. reflexivity. }
  destruct (s !! _) as [data|] eqn:Hk.
  2: { intros H. injection H as <- <- <-. rewrite Hk. eexists. reflexivity. }
  destruct (data !! "value"%string) as [enc|] eqn:Hv.
  2: { intros H. injection H as <- <- <-. rewrite Hk, Hv. eexists. reflexivity. }
  destruct (loadConfig enc) as [[server config]|] eqn:Hl.
  2: { intros H. injection H as <- <- <-. rewrite Hk, Hv, Hl. eexists. reflexivity. }
  intros H. injection H as <- <- <-.
  rewrite lookup_insert_ne.
  2: { intros Heq. injection Heq as _ Hn. exact (kubeconfig_name_ne _ (eq_sym Hn)). }
  rewrite Hk, Hv, Hl, insert_insert_eq. eexists. reflexivity.
Qed.

Lemma deleteClusterCleanup_view o o' s :
  view o = view o' -> deleteClusterCleanup o s = deleteClusterCleanup o' s.
Proof.
  unfold view. intros H. injection H as _ _ _ _ Hsp.
  unfold deleteClusterCleanup. rewrite Hsp. reflexivity.
Qed.

Lemma deleteClusterCleanup_fail_keeps o s e s1 calls :
  deleteClusterCleanup o s = (Some e, s1, calls) -> s1 = s.
Proof.
  unfold deleteClusterCleanup. destruct (s !! _); intros H; [discriminate |].
  injection H as _ <- _. reflexivity.
Qed.

(** The ArgoCluster controller of [main], with a kubeconfig loader that
    always succeeds. *)
Definition argoClusterController : Controller :=
  mkController "field.vmware.com/argo-attach-cluster-cleanup"
    (applyArgoCluster (fun _ => Some ("https://10.0.0.1:6443", "{}")%string))
    deleteClusterCleanup ["kube-system"%string].

Lemma reconcileByKey_idempotent_witness :
  let u := mkObj "c1" "ns1" 1 None [] (mkSpec "c1" "argocd" "default") None in
  let w := mkWorld (<[objKey u := u]> ∅)
             (<[("ns1", "c1-kubeconfig")%string := <["value"%string := "a3ViZWNvbmZpZw=="%string]> ∅]> ∅)
             [] 0 [] in
  inj w = [] /\ storeWf w /\
  let pass := fun w => snd (reconcileByKey argoClusterController "ns1/c1" w) in
  secrets (Nat.iter 3 pass w) = secrets (pass w) /\
  forall k, option_map obsObj (store (Nat.iter 3 pass w) !! k) =
            option_map obsObj (store (pass w) !! k).
Proof.
  intros u w.
  assert (Hwf : storeWf w).
  { intros k o Hk. unfold w in Hk. simpl in Hk.
    destruct (decide (k = objKey u)) as [->|Hne].
    - rewrite lookup_insert_eq in Hk. injection Hk as <-. reflexivity.
    - rewrite lookup_insert_ne, lookup_empty in Hk by congruence. discriminate. }
  split; [reflexivity | split; [exact Hwf |]].
  exact (reconcileByKey_idempotent argoClusterController
           (fun o o' ns s => applyArgoCluster_view _ o o' ns s)
           deleteClusterCleanup_view
           (fun o ns s r s1 calls => applyArgoCluster_idem _ o ns s r s1 calls)
           deleteClusterCleanup_fail_keeps "ns1/c1" w 2 eq_refl Hwf).
Defined.

(** * Further properties of the code *)

(** ** util.go: finalizer lists *)

(** [removeString] drops every occurrence of [s], keeps every other
    element with its multiplicity, and keeps the order of what it keeps. *)
Theorem removeString_spec (l : list string) (s : string) :
  count_occ string_dec (removeString l s) s = 0%nat /\
  (forall x, x <> s -> count_occ string_dec (removeString l s) x = count_occ string_dec l x) /\
  sublist (removeString l s) l.
Proof.
  split; [apply count_occ_removeString |].
  unfold removeString. induction l as [|y l [IH1 IH2]]; simpl.
  - split; [reflexivity | constructor].
  - destruct (String.eqb_spec y s) as [->|Hne]; simpl.
    + split; [| apply sublist_cons; exact IH2].
      intros x Hx. rewrite IH1 by exact Hx. destruct (string_dec s x); [congruence | reflexivity].
    + split; [| apply sublist_skip; exact IH2].
      intros x Hx. simpl. rewrite IH1 by exact Hx. reflexivity.
Qed.

(** Adding and removing the managed finalizer the way [Reconcile] does:
    after appending [F] the object contains it, after [removeString] it does
    not, and when [F] was absent, removing it from the extended list gives
    back the original list. *)
Theorem finalizer_add_remove_roundtrip (o : Obj) (F : string) :
  containsFinalizer (set_finalizers (o_finalizers o ++ [F]) o) F = true /\
  containsFinalizer (set_finalizers (removeString (o_finalizers o) F) o) F = false /\
  (containsFinalizer o F = false -> removeString (o_finalizers o ++ [F]) F = o_finalizers o).
Proof.
  unfold containsFinalizer; simpl.
  split; [apply existsb_append_self |]. split; [apply existsb_removeString |].
  unfold removeString. rewrite List.filter_app. simpl. rewrite String.eqb_refl. simpl.
  rewrite app_nil_r. induction (o_finalizers o) as [|x l IH]; simpl; intros H; [reflexivity |].
  apply orb_false_iff in H as [H1 H2]. rewrite String.eqb_sym, H1. simpl.
  rewrite IH by exact H2. reflexivity.
Qed.

Lemma apiPatchFinalizers_frame k fs w k' :
  k' <> k -> store (snd (apiPatchFinalizers k fs w)) !! k' = store w !! k'.
Proof.
  intros Hne. unfold apiPatchFinalizers, bind, takeFault, log, ret.
  destruct (inj w) as [|[e|] r]; simpl; try reflexivity;
    destruct (store w !! k); simpl; try reflexivity;
    (destruct (negb _ && bool_decide _); simpl;
     [apply lookup_delete_ne | apply lookup_insert_ne]; congruence).
Qed.

(** [patchFinalizer] makes exactly one call, a patch of the object's own
    key carrying the whole list; it touches no other object and no secret;
    it fails exactly when that call fails, and its error then keeps the API
    error's class ([IsNotFound], [IsConflict] see through the wrapping). *)
Theorem patchFinalizer_outcome (obj : Obj) (F : string) (fs : list string) (w : World) :
  let '(r, w') := patchFinalizer obj F fs w in
  secrets w' = secrets w /\
  (forall k, k <> objKey obj -> store w' !! k = store w !! k) /\
  exists res, trace w' = trace w ++ [EvPatchFinalizers (objKey obj) fs res] /\
    match res with
    | None => r = None
    | Some a => exists e, r = Some e /\ reasonOf e = Some a
    end.
Proof.
  unfold patchFinalizer, bind at 1.
  pose proof (apiPatchFinalizers_secrets (objKey obj) fs w) as Hs.
  pose proof (apiPatchFinalizers_event (objKey obj) fs w) as Ht.
  pose proof (apiPatchFinalizers_frame (objKey obj) fs w) as Hf.
  destruct (apiPatchFinalizers (objKey obj) fs w) as [res w1]. unfold sameSecrets in Hs. simpl in *.
  destruct res as [a|]; simpl; (split; [exact Hs | split; [exact Hf |]]);
    eexists; (split; [exact Ht |]); [eexists; split |]; reflexivity.
Qed.

(** ** util.go: the errors [patchStatus] reports *)

Lemma patchStatusLoop_other obj st i fuel le rs e rest w :
  Forall (fun a => conflictClass a = true) rs -> (List.length rs < fuel)%nat ->
  conflictClass e = false -> e <> NotFound ->
  inj w = map Some rs ++ Some e :: rest ->
  fst (patchStatusLoop obj st i fuel le w) =
    Some (Wrapped ("failed to apply status for " +:+ o_name obj +:+ "/" +:+ o_namespace obj +:+
                   " after " +:+ pretty (N.of_nat (S (i + List.length rs))) +:+ " tries: ")
                  (ApiError e)).
Proof.
  revert i fuel le w. induction rs as [|a rs IH]; intros i fuel le w Hrs Hlen He Hnf Hinj;
    (destruct fuel as [|fuel]; [simpl in Hlen; lia |]); simpl in Hinj.
  - simpl. unfold bind at 1, apiApplyStatus, bind, takeFault. rewrite Hinj. simpl.
    rewrite Nat.add_0_r.
    destruct e as [| | |m]; [congruence | discriminate | discriminate | reflexivity].
  - inversion Hrs as [|? ? Ha Hrs']; subst.
    simpl. unfold bind at 1, apiApplyStatus, bind, takeFault. rewrite Hinj. simpl.
    rewrite Nat.add_succ_r. change (S (i + List.length rs)) with (S i + List.length rs)%nat.
    destruct a as [| | |m]; try discriminate; simpl; unfold bind, sleep, log; simpl;
      (apply IH; [exact Hrs' | simpl in Hlen; lia | exact He | exact Hnf | reflexivity]).
Qed.

(** When the status apply gets, after [n < 5] conflict-class responses, an
    error that is neither a conflict-class error nor NotFound,
    [patchStatus] stops there and reports that error, wrapped with the
    object's name and namespace and the attempt number [n + 1]. *)
Theorem patchStatus_error_after_tries (obj : Obj) (st : Status) (w : World)
    (rs : list ApiErr) (e : ApiErr) (rest : list (option ApiErr))
    (Hrs : Forall (fun a => conflictClass a = true) rs) (Hlen : (List.length rs < 5)%nat)
    (He : conflictClass e = false) (Hnf : e <> NotFound)
    (Hinj : inj w = map Some rs ++ Some e :: rest) :
  fst (patchStatus obj st w) =
    Some (Wrapped ("failed to apply status for " +:+ o_name obj +:+ "/" +:+ o_namespace obj +:+
                   " after " +:+ pretty (N.of_nat (S (List.length rs))) +:+ " tries: ")
                  (ApiError e)).
Proof.
  exact (patchStatusLoop_other obj st 0 maxRetries None rs e rest w Hrs Hlen He Hnf Hinj).
Qed.

Lemma patchStatus_error_after_tries_witness :
  let obj := mkObj "foo" "ns1" 1 None [] (mkSpec "c1" "argocd" "default") None in
  let st := mkStatus "Ready" "" true 0 in
  let w := mkWorld ∅ ∅ [Some Conflict; Some (OtherApiErr "timeout")] 0 [] in
  Forall (fun a => conflictClass a = true) [Conflict] /\
  fst (patchStatus obj st w) =
    Some (Wrapped "failed to apply status for foo/ns1 after 2 tries: "
                  (ApiError (OtherApiErr "timeout"))).
Proof.
  intros obj st w. split; [repeat constructor |].
  rewrite (patchStatus_error_after_tries obj st w [Conflict] (OtherApiErr "timeout") []
             ltac:(repeat constructor) ltac:(simpl; lia) eq_refl ltac:(discriminate) eq_refl).
  reflexivity.
Defined.

Lemma patchStatusLoop_exhausted obj st i le rs rest w :
  Forall (fun a => conflictClass a = true) rs ->
  inj w = map Some rs ++ rest ->
  fst (patchStatusLoop obj st i (List.length rs) le w) =
    Some (Wrapped ("failed to apply status after " +:+ pretty (N.of_nat maxRetries) +:+
                   " attempts: ")
                  (default (Plain "%!w(<nil>)")
                     (fold_left (fun _ a => Some (Wrapped "status apply conflict encountered: "
                                                          (ApiError a))) rs le))).
Proof.
  revert i le w. induction rs as [|a rs IH]; intros i le w Hrs Hinj; [reflexivity |].
  inversion Hrs as [|? ? Ha Hrs']; subst. simpl in Hinj.
  simpl. unfold bind at 1, apiApplyStatus, bind, takeFault. rewrite Hinj. simpl.
  destruct a as [| | |m]; try discriminate; simpl; unfold bind, sleep, log; simpl;
    (apply IH; [exact Hrs' | reflexivity]).
Qed.

(** Five conflict-class responses in a row exhaust [patchStatus]: it
    reports the retry budget and wraps the last conflict, so the error it
    returns has the class (Conflict or AlreadyExists) of the fifth response. *)
Theorem patchStatus_exhausted (obj : Obj) (st : Status) (w : World)
    (rs : list ApiErr) (a : ApiErr) (rest : list (option ApiErr))
    (Hrs : Forall (fun x => conflictClass x = true) (rs ++ [a]))
    (Hlen : List.length rs = 4%nat)
    (Hinj : inj w = map Some (rs ++ [a]) ++ rest) :
  fst (patchStatus obj st w) =
    Some (Wrapped "failed to apply status after 5 attempts: "
                  (Wrapped "status apply conflict encountered: " (ApiError a))) /\
  reasonOf (Wrapped "failed to apply status after 5 attempts: "
              (Wrapped "status apply conflict encountered: " (ApiError a))) = Some a.
Proof.
  split; [| reflexivity].
  unfold patchStatus.
  replace maxRetries with (List.length (rs ++ [a])) by (rewrite length_app, Hlen; reflexivity).
  rewrite (patchStatusLoop_exhausted obj st 0 None (rs ++ [a]) rest w Hrs Hinj).
  rewrite fold_left_app. reflexivity.
Qed.

Lemma patchStatus_exhausted_witness :
  let obj := mkObj "foo" "ns1" 1 None [] (mkSpec "c1" "argocd" "default") None in
  let st := mkStatus "Ready" "" true 0 in
  let w := mkWorld ∅ ∅ (map Some [Conflict; Conflict; AlreadyExists; Conflict; AlreadyExists]) 0 [] in
  Forall (fun x => conflictClass x = true) [Conflict; Conflict; AlreadyExists; Conflict; AlreadyExists] /\
  fst (patchStatus obj st w) =
    Some (Wrapped "failed to apply status after 5 attempts: "
                  (Wrapped "status apply conflict encountered: " (ApiError AlreadyExists))).
Proof.
  intros obj st w. split; [repeat constructor |].
  exact (proj1 (patchStatus_exhausted obj st w [Conflict; Conflict; AlreadyExists; Conflict]
                  AlreadyExists [] ltac:(repeat constructor) eq_refl eq_refl)).
Defined.

(** ** main.go: [updateGenericStatus] *)

(** The status map [updateGenericStatus] builds: it is ready exactly when
    [success] is set and there is no error, its state is "Failed" exactly
    when there is an error, whose text then follows "Reconciliation failed: "
    in the message; it is stamped with the current time, and building it
    writes nothing. *)
Theorem updateGenericStatus_fields (u : Obj) (success : bool) (err : option error) (w : World) :
  let '(st, w') := updateGenericStatus u success err w in
  (st_ready st = true <-> success = true /\ err = None) /\
  (st_state st = "Failed"%string <-> err <> None) /\
  (forall e, err = Some e -> st_message st = ("Reconciliation failed: " +:+ errorString e)%string) /\
  st_lastUpdated st = now w /\ store w' = store w /\ secrets w' = secrets w /\ trace w' = trace w.
Proof.
  unfold updateGenericStatus, Now, bind, ret. simpl.
  destruct err as [e|]; [| destruct success]; simpl;
    repeat split; intros; try reflexivity; try discriminate; try congruence;
    match goal with
    | H : _ /\ _ |- _ => destruct H; discriminate
    | H : Some _ = Some _ |- _ => injection H as <-; reflexivity
    end.
Qed.

(** ** workqueue.go: [processNextWorkItem] and [reconcileByKey] *)

(** A successful reconcile ends the item's processing: the worker goes on,
    the item's failure count is reset, nothing is scheduled for later, the
    item is no longer marked as being processed, and nothing is logged. *)
Theorem processNextWorkItem_on_success (reconcile : string -> M (option error))
    (q q1 : Queue) (w w1 : World) (key : string)
    (Hget : queueGet q = Some (Some (inl key), q1))
    (Hrec : reconcile key w = (None, w1)) :
  exists q', processNextWorkItem reconcile q w = Some (true, q', w1) /\
    NumRequeues (inl key) q' = 0%nat /\ q_waiting q' = q_waiting q1 /\
    inl key ∉ q_processing q'.
Proof.
  unfold processNextWorkItem. rewrite Hget, Hrec. eexists. split; [reflexivity |].
  unfold queueDone, queueForget, NumRequeues.
  case_bool_decide; simpl; rewrite lookup_delete_eq;
    (split; [reflexivity | split; [reflexivity |]]);
    intros Hin; apply list_elem_of_filter in Hin; destruct Hin as [Hne _]; exact (Hne eq_refl).
Qed.

Lemma processNextWorkItem_on_success_witness :
  let q := mkQueue [inl "ns1/foo"%string] [inl "ns1/foo"%string] [] false
             (<[inl "ns1/foo"%string := 3%nat]> ∅) [] in
  let rec : string -> M (option error) := fun _ w => (None, w) in
  let w := mkWorld ∅ ∅ [] 0 [] in
  exists q', processNextWorkItem rec q w = Some (true, q', w) /\
    NumRequeues (inl "ns1/foo"%string) q' = 0%nat.
Proof.
  intros q rec w.
  destruct (processNextWorkItem_on_success rec q
              (mkQueue [] [] [inl "ns1/foo"%string] false
                 (<[inl "ns1/foo"%string := 3%nat]> ∅) [])
              w w "ns1/foo"%string ltac:(reflexivity) eq_refl)
    as [q' [H1 [H2 _]]].
  exists q'. split; assumption.
Defined.

(** The worker loop ([for c.processNextWorkItem() {}]) ends only on a
    queue that is shut down and drained: [processNextWorkItem] returns
    false exactly then, blocks exactly on an empty live queue, and in every
    other case processes an item and returns true. *)
Theorem processNextWorkItem_stops_iff (reconcile : string -> M (option error))
    (q : Queue) (w : World) :
  ((exists q' w', processNextWorkItem reconcile q w = Some (false, q', w')) <->
     q_queue q = [] /\ q_shuttingDown q = true) /\
  (processNextWorkItem reconcile q w = None <-> q_queue q = [] /\ q_shuttingDown q = false) /\
  (q_queue q <> [] -> exists q' w', processNextWorkItem reconcile q w = Some (true, q', w')).
Proof.
  unfold processNextWorkItem, queueGet.
  destruct (q_queue q) as [|x rest]; [destruct (q_shuttingDown q) |].
  - split; [split; [intros _; split; reflexivity | intros _; eauto] |].
    split; [split; [discriminate | intros [_ H]; discriminate] | intros H; congruence].
  - split; [split; [intros (q' & w' & H); discriminate | intros [_ H]; discriminate] |].
    split; [split; [intros _; split; reflexivity | reflexivity] | intros H; congruence].
  - destruct x as [key|n]; [destruct (reconcile key w) as [[err|] w1]; [destruct (_ <? 10)%nat |] |];
      (split; [split; [intros (q'' & w'' & H); discriminate | intros [H _]; discriminate] |]);
      (split; [split; [discriminate | intros [H _]; discriminate] | intros _; eauto]).
Qed.

(** The number of '/' characters of a string. *)
Definition slashes (s : string) : nat :=
  List.length (List.filter (fun ch => Ascii.eqb ch "/"%char) (list_ascii_of_string s)).

Lemma length_splitSlash s : List.length (splitSlash s) = S (slashes s).
Proof.
  induction s as [|ch rest IH]; [reflexivity |]. unfold slashes in *. simpl.
  destruct (Ascii.eqb ch "/"); simpl; [rewrite IH; reflexivity |].
  destruct (splitSlash rest) as [|p ps]; simpl in *; [discriminate | exact IH].
Qed.

Lemma splitSlash_noslash s : slashes s = 0%nat -> splitSlash s = [s].
Proof.
  induction s as [|ch rest IH]; [reflexivity |]. unfold slashes in *. simpl.
  destruct (Ascii.eqb ch "/"); simpl; [discriminate |].
  intros H. rewrite (IH H). reflexivity.
Qed.

Lemma splitSlash_app_slash a b :
  slashes a = 0%nat -> splitSlash (a +:+ String "/" b) = a :: splitSlash b.
Proof.
  induction a as [|ch rest IH]; [reflexivity |]. unfold slashes in *. simpl.
  destruct (Ascii.eqb ch "/"); simpl; [discriminate |].
  intros H. rewrite (IH H). reflexivity.
Qed.

Lemma MetaNamespaceKeyFunc_split (o : Obj) :
  slashes (o_namespace o) = 0%nat -> slashes (o_name o) = 0%nat ->
  SplitMetaNamespaceKey (MetaNamespaceKeyFunc o) = Some (objKey o).
Proof.
  intros Hns Hn. unfold SplitMetaNamespaceKey, MetaNamespaceKeyFunc, objKey.
  destruct (String.eqb_spec (o_namespace o) "") as [He|He].
  - rewrite (splitSlash_noslash _ Hn), He. reflexivity.
  - change ("/" +:+ o_name o)%string with (String "/" (o_name o)).
    rewrite (splitSlash_app_slash _ _ Hns), (splitSlash_noslash _ Hn). reflexivity.
Qed.

(** The keys the informer enqueues lead back to the object: for an object
    whose namespace and name contain no '/', the key queued by an Add or a
    Delete event, and by an Update event that is let through, is split by
    [reconcileByKey] into exactly that object's namespace and name. *)
Theorem informer_key_roundtrip (o : Obj)
    (Hns : slashes (o_namespace o) = 0%nat) (Hn : slashes (o_name o) = 0%nat) :
  (forall q, exists key, handleAdd (AnyUnstructured o) q = queueAdd (inl key) q /\
     SplitMetaNamespaceKey key = Some (objKey o)) /\
  (forall q, exists key, handleDelete (AnyUnstructured o) q = queueAdd (inl key) q /\
     SplitMetaNamespaceKey key = Some (objKey o)) /\
  (forall oldObj key, UpdateFunc oldObj (AnyUnstructured o) = Some key ->
     SplitMetaNamespaceKey key = Some (objKey o)).
Proof.
  pose proof (MetaNamespaceKeyFunc_split o Hns Hn) as H.
  split; [| split].
  - intros q. exists (MetaNamespaceKeyFunc o). split; [reflexivity | exact H].
  - intros q. exists (MetaNamespaceKeyFunc o). split; [reflexivity | exact H].
  - intros oldObj key. unfold UpdateFunc. destruct (toUnstructured oldObj); simpl; [| discriminate].
    destruct (_ || _); [| discriminate]. intros Hk. injection Hk as <-. exact H.
Qed.

Lemma informer_key_roundtrip_witness :
  let o := mkObj "foo" "ns1" 1 None [] (mkSpec "c1" "argocd" "default") None in
  slashes (o_namespace o) = 0%nat /\ slashes (o_name o) = 0%nat /\
  forall q, exists key, handleAdd (AnyUnstructured o) q = queueAdd (inl key) q /\
    SplitMetaNamespaceKey key = Some ("ns1", "foo")%string.
Proof.
  intros o. split; [reflexivity | split; [reflexivity |]].
  exact (proj1 (informer_key_roundtrip o eq_refl eq_refl)).
Defined.

(** [reconcileByKey] rejects exactly the keys with two or more '/': it
    then returns an "invalid resource key" error and makes no call at all. *)
Theorem reconcileByKey_invalid_key (c : Controller) (key : string) (w : World) :
  (SplitMetaNamespaceKey key = None <-> (2 <= slashes key)%nat) /\
  ((2 <= slashes key)%nat ->
   reconcileByKey c key w = (Some (Plain ("invalid resource key: " +:+ key)), w)).
Proof.
  assert (H : SplitMetaNamespaceKey key = None <-> (2 <= slashes key)%nat).
  { unfold SplitMetaNamespaceKey. pose proof (length_splitSlash key) as L.
    destruct (splitSlash key) as [|a [|b [|d l]]]; simpl in L;
      split; intros; first [lia | discriminate | reflexivity]. }
  split; [exact H |]. intros Hs. apply H in Hs. unfold reconcileByKey. rewrite Hs. reflexivity.
Qed.

Lemma apiGet_err_trace k w e w1 :
  apiGet k w = (inr e, w1) -> trace w1 = trace w ++ [EvGet k (Some e)].
Proof.
  unfold apiGet, bind, takeFault, log, ret. destruct (inj w) as [|[e'|] r]; simpl.
  - destruct (store w !! k); intros H; inversion H; reflexivity.
  - intros H; inversion H; reflexivity.
  - destruct (store w !! k); intros H; inversion H; reflexivity.
Qed.

(** A fetch that fails with anything but NotFound makes [reconcileByKey]
    return that error, wrapped with the key (so the key is retried), after
    no other call: the store and the secrets are unchanged and the fetch is
    the only event. *)
Theorem reconcileByKey_fetch_error (c : Controller) (key : string) (k : string * string)
    (w w1 : World) (e : ApiErr)
    (Hsplit : SplitMetaNamespaceKey key = Some k)
    (Hget : apiGet k w = (inr e, w1)) (Hne : e <> NotFound) :
  reconcileByKey c key w =
    (Some (Wrapped ("failed to fetch resource " +:+ key +:+ ": ") (ApiError e)), w1) /\
  store w1 = store w /\ secrets w1 = secrets w /\ trace w1 = trace w ++ [EvGet k (Some e)].
Proof.
  pose proof (apiGet_store k w) as Hs. pose proof (apiGet_secrets k w) as Hsec.
  unfold sameStore, sameSecrets in *. rewrite Hget in Hs, Hsec. simpl in Hs, Hsec.
  split; [| split; [exact Hs | split; [exact Hsec | apply apiGet_err_trace; exact Hget]]].
  unfold reconcileByKey. rewrite Hsplit. unfold bind at 1. rewrite Hget.
  destruct e; [congruence | reflexivity ..].
Qed.

Lemma reconcileByKey_fetch_error_witness :
  let w := mkWorld ∅ ∅ [Some (OtherApiErr "connection refused")] 0 [] in
  let k := ("ns1", "foo")%string in
  let w1 := emit (EvGet k (Some (OtherApiErr "connection refused"))) (set_inj [] w) in
  SplitMetaNamespaceKey "ns1/foo" = Some k /\
  apiGet k w = (inr (OtherApiErr "connection refused"), w1) /\
  reconcileByKey argoClusterController "ns1/foo" w =
    (Some (Wrapped "failed to fetch resource ns1/foo: "
                   (ApiError (OtherApiErr "connection refused"))), w1).
Proof.
  intros w k w1. split; [reflexivity | split; [reflexivity |]].
  exact (proj1 (reconcileByKey_fetch_error argoClusterController "ns1/foo" k w w1
                  (OtherApiErr "connection refused") eq_refl eq_refl ltac:(discriminate))).
Defined.

(** ** main.go: the ArgoCluster capabilities *)



(** [deleteClusterCleanup] issues one delete, of [<clusterName>-argo-cluster]
    in the Argo namespace, touches no other secret, and afterwards that
    secret is absent; with a delete call that fails only on a missing
    secret, it succeeds exactly when the secret existed: a secret that is
    already gone makes it fail with the API's NotFound error. *)
Theorem deleteClusterCleanup_outcome (obj : Obj) (s : Secrets) :
  let target := (spec_argoNamespace (o_spec obj),
                 spec_clusterName (o_spec obj) +:+ "-argo-cluster")%string in
  let '(r, s', calls) := deleteClusterCleanup obj s in
  calls = [RDeleteSecret target.1 target.2] /\ s' !! target = None /\
  (forall k, k <> target -> s' !! k = s !! k) /\
  (r = None <-> s !! target <> None) /\
  (r <> None -> r = Some (ApiError NotFound) /\ IsNotFound (ApiError NotFound) = true /\ s' = s).
Proof.
  cbv zeta. unfold deleteClusterCleanup.
  destruct (s !! _) as [d|] eqn:Hk.
  - split; [reflexivity | split; [apply lookup_delete_eq |]].
    split; [intros k Hne; apply lookup_delete_ne; congruence |].
    split; [split; [intros _; discriminate | reflexivity] | intros H; contradiction].
  - split; [reflexivity | split; [exact Hk |]].
    split; [intros k _; reflexivity |].
    split; [split; [discriminate | intros H; contradiction] | intros _; repeat split].
Qed.

(** ** main.go: [deleteNamespaceCleanup] *)

(** What [deleteNamespaceCleanup] sets out to delete, in order: the service
    account's token secret, then (only for the default service account) the
    service account and its role binding, then the Argo cluster secret. *)
Definition namespaceCleanupTargets (an : ArgoNamespace) : list (string * string * string) :=
  let ns := ans_namespace an in
  let custom := negb (String.eqb (ans_serviceAccount an) "") in
  let saName := if custom then ans_serviceAccount an else "argo-attach-sa" in
  [("secrets", ns, saName +:+ "-token")] ++
  (if custom then [] else [("serviceaccounts", ns, saName); ("rolebindings", ns, saName)]) ++
  [("secrets", ans_argoNamespace an, "supervisor-ns-" +:+ ns +:+ "-argo-cluster")]%string.

(** Deleting a list of resources in order, stopping at the first failure. *)
Fixpoint deleteInOrder (l : list (string * string * string)) (rs : Resources)
  : option ApiErr * Resources :=
  match l with
  | [] => (None, rs)
  | (g, ns, n) :: l' =>
      match deleteResource g ns n rs with
      | (Some e, rs1) => (Some e, rs1)
      | (None, rs1) => deleteInOrder l' rs1
      end
  end.

Lemma deleteNamespaceCleanup_in_order an rs :
  deleteNamespaceCleanup an rs =
    let '(r, rs') := deleteInOrder (namespaceCleanupTargets an) rs in (option_map ApiError r, rs').
Proof.
  unfold deleteNamespaceCleanup, namespaceCleanupTargets, deleteSecret. simpl.
  destruct (String.eqb (ans_serviceAccount an) "") eqn:Hsa; simpl.
  - destruct (deleteResource _ _ _ rs) as [[e|] rs1]; [reflexivity |].
    destruct (deleteResource _ _ _ rs1) as [[e|] rs2]; [reflexivity |].
    destruct (deleteResource _ _ _ rs2) as [[e|] rs3]; [reflexivity |].
    destruct (deleteResource _ _ _ rs3) as [[e|] rs4]; reflexivity.
  - destruct (deleteResource _ _ _ rs) as [[e|] rs1]; [reflexivity |].
    destruct (deleteResource _ _ _ rs1) as [[e|] rs2]; reflexivity.
Qed.

Lemma deleteInOrder_spec l rs :
  let '(r, rs') := deleteInOrder l rs in
  rs' ⊆ rs /\ (forall x, x ∈ rs -> x ∉ rs' -> In x l) /\
  (r = None -> forall x, In x l -> x ∉ rs') /\
  (r <> None -> r = Some NotFound) /\
  (forall x l', l = x :: l' -> x ∉ rs -> r = Some NotFound /\ rs' = rs).
Proof.
  revert rs. induction l as [|[[g ns] n] l IH]; intros rs; simpl.
  - split; [set_solver |]. split; [set_solver |]. split; [intros _ x [] |].
    split; [congruence | intros x l' H; discriminate].
  - unfold deleteResource. destruct (decide ((g, ns, n) ∈ rs)) as [Hin|Hnin].
    + specialize (IH (rs ∖ {[(g, ns, n)]})).
      destruct (deleteInOrder l (rs ∖ {[(g, ns, n)]})) as [r rs'].
      destruct IH as (H1 & H2 & H3 & H4 & _).
      split; [set_solver |].
      split; [intros x Hx Hx'; destruct (decide (x = (g, ns, n))) as [->|Hne];
              [left; reflexivity | right; apply H2; set_solver] |].
      split; [intros Hr x [<-|Hx]; [set_solver | exact (H3 Hr x Hx)] |].
      split; [exact H4 |]. intros x l' Heq Hx. injection Heq as <- _. contradiction.
    + split; [set_solver |]. split; [set_solver |]. split; [discriminate |].
      split; [reflexivity |]. intros x l' Heq _. split; reflexivity.
Qed.

(** [deleteNamespaceCleanup] deletes, in order and stopping at the first
    failure, the token secret of the service account, then (only when no
    service account is given in the spec) the default service account and
    its role binding, then the Argo cluster secret.  It deletes nothing
    else: a service account named in the spec, and its role binding, are
    never deleted; on success none of those resources is left.  With
    delete calls that fail only on a missing resource, a missing resource
    makes it fail with NotFound, and a missing token secret stops it
    before anything is deleted. *)
Theorem deleteNamespaceCleanup_outcome (an : ArgoNamespace) (rs : Resources) :
  let plan := namespaceCleanupTargets an in
  let '(r, rs') := deleteNamespaceCleanup an rs in
  rs' ⊆ rs /\ (forall x, x ∈ rs -> x ∉ rs' -> In x plan) /\
  (r = None -> forall x, In x plan -> x ∉ rs') /\
  (r <> None -> r = Some (ApiError NotFound)) /\
  (ans_serviceAccount an <> ""%string ->
     forall x, x.1.1 <> "secrets"%string -> (x ∈ rs' <-> x ∈ rs)) /\
  (("secrets", ans_namespace an,
    (if String.eqb (ans_serviceAccount an) "" then "argo-attach-sa" else ans_serviceAccount an)
      +:+ "-token")%string ∉ rs ->
   r = Some (ApiError NotFound) /\ rs' = rs).
Proof.
  cbv zeta. rewrite deleteNamespaceCleanup_in_order.
  pose proof (deleteInOrder_spec (namespaceCleanupTargets an) rs) as H.
  destruct (deleteInOrder (namespaceCleanupTargets an) rs) as [r rs'].
  destruct H as (H1 & H2 & H3 & H4 & H5).
  split; [exact H1 |]. split; [exact H2 |].
  split; [intros Hr; destruct r; [discriminate | exact (H3 eq_refl)] |].
  split; [intros Hr; destruct r; [rewrite H4 by discriminate; reflexivity | contradiction] |].
  split.
  - intros Hsa x Hx. split; [apply H1 |]. intros Hin.
    destruct (decide (x ∈ rs')) as [Hy|Hn]; [exact Hy |].
    exfalso. pose proof (H2 x Hin Hn) as Hp. unfold namespaceCleanupTargets in Hp.
    apply String.eqb_neq in Hsa. rewrite Hsa in Hp. simpl in Hp.
    destruct Hp as [<-|[<-|[]]]; apply Hx; reflexivity.
  - intros Hn. unfold namespaceCleanupTargets in H5.
    destruct (String.eqb (ans_serviceAccount an) "") eqn:Hsa; simpl in H5;
      destruct (H5 _ _ eq_refl Hn) as [-> ->]; split; reflexivity.
Qed.

(** ** main.go: [Reconcile]: what the controller never does to objects *)

(** A store step that creates no object and changes no object's view (name,
    namespace, generation, deletion timestamp, spec), and removes only
    objects that are being deleted. *)
Definition storeStep (w w' : World) : Prop :=
  (forall k o', store w' !! k = Some o' -> exists o, store w !! k = Some o /\ view o' = view o) /\
  (forall k o, store w !! k = Some o -> store w' !! k = None ->
               IsZero (o_deletionTimestamp o) = false).

#[local] Instance storeStep_refl : Reflexive storeStep.
Proof. intros w. split; [intros k o' H; exists o'; auto | intros k o H1 H2; congruence]. Qed.
#[local] Instance storeStep_trans : Transitive storeStep.
Proof.
  intros x y z [A1 B1] [A2 B2]. split.
  - intros k o' Ho'. destruct (A2 k o' Ho') as [o1 [Ho1 Hv1]].
    destruct (A1 k o1 Ho1) as [o [Ho Hv]]. exists o. split; [exact Ho | congruence].
  - intros k o Ho Hz. destruct (store y !! k) as [o1|] eqn:Hy1.
    + pose proof (B2 k o1 Hy1 Hz) as H. destruct (A1 k o1 Hy1) as [o0 [Ho0 Hv]].
      rewrite Ho in Ho0. injection Ho0 as <-. unfold view in Hv. injection Hv as _ _ _ Hd _.
      rewrite <- Hd. exact H.
    + exact (B1 k o Ho Hy1).
Qed.

Lemma sameStore_storeStep w w' : sameStore w w' -> storeStep w w'.
Proof. intros H. unfold sameStore in H. split; rewrite H; [intros k o' Ho'; eauto | congruence]. Qed.

Lemma preserves_storeStep {A} (m : M A) : preserves sameStore m -> preserves storeStep m.
Proof. intros H w. apply sameStore_storeStep, H. Qed.

Lemma sleep_store ms : preserves sameStore (sleep ms).
Proof. intros w. reflexivity. Qed.

Lemma view_objKey o o' : view o' = view o -> objKey o' = objKey o.
Proof. unfold view, objKey. intros H. injection H as -> -> _ _ _. reflexivity. Qed.

Lemma storeStep_wf w w' : storeStep w w' -> storeWf w -> storeWf w'.
Proof.
  intros [A _] Hw k o' Ho'. destruct (A k o' Ho') as [o [Ho Hv]].
  rewrite (view_objKey _ _ Hv). exact (Hw k o Ho).
Qed.

Lemma apiApplyStatus_storeStep k st : preserves storeStep (apiApplyStatus k st).
Proof.
  unfold apiApplyStatus.
  apply preserves_bind; [typeclasses eauto .. | apply preserves_storeStep, takeFault_store |].
  intros [e|].
  - apply preserves_bind; [typeclasses eauto .. | apply preserves_storeStep, log_store |
      intros; apply preserves_ret; typeclasses eauto].
  - intros w. destruct (store w !! k) as [o|] eqn:E; unfold emit, set_store; simpl;
      [| apply sameStore_storeStep; reflexivity].
    unfold storeStep; cbn [store]. split.
    + intros k' o' Ho'. destruct (decide (k = k')) as [<-|Hne].
      * rewrite lookup_insert_eq in Ho'. injection Ho' as <-. exists o. split; [exact E | reflexivity].
      * rewrite lookup_insert_ne in Ho' by exact Hne. exists o'. split; [exact Ho' | reflexivity].
    + intros k' o' Ho' Hn. destruct (decide (k = k')) as [<-|Hne].
      * rewrite lookup_insert_eq in Hn. discriminate.
      * rewrite lookup_insert_ne in Hn by exact Hne. congruence.
Qed.

Lemma apiPatchFinalizers_storeStep k fs : preserves storeStep (apiPatchFinalizers k fs).
Proof.
  unfold apiPatchFinalizers.
  apply preserves_bind; [typeclasses eauto .. | apply preserves_storeStep, takeFault_store |].
  intros [e|].
  - apply preserves_bind; [typeclasses eauto .. | apply preserves_storeStep, log_store |
      intros; apply preserves_ret; typeclasses eauto].
  - intros w. destruct (store w !! k) as [o|] eqn:E; unfold emit, set_store; simpl;
      [| apply sameStore_storeStep; reflexivity].
    destruct (negb (IsZero (o_deletionTimestamp o)) && bool_decide (fs = [])) eqn:Hd;
      unfold storeStep; cbn [store]; split.
    + intros k' o' Ho'. destruct (decide (k = k')) as [<-|Hne].
      * rewrite lookup_delete_eq in Ho'. discriminate.
      * rewrite lookup_delete_ne in Ho' by exact Hne. exists o'. split; [exact Ho' | reflexivity].
    + intros k' o' Ho' Hn. destruct (decide (k = k')) as [<-|Hne].
      * rewrite E in Ho'. injection Ho' as <-. apply andb_true_iff in Hd as [Hd _].
        destruct (IsZero (o_deletionTimestamp o)); [discriminate | reflexivity].
      * rewrite lookup_delete_ne in Hn by exact Hne. congruence.
    + intros k' o' Ho'. destruct (decide (k = k')) as [<-|Hne].
      * rewrite lookup_insert_eq in Ho'. injection Ho' as <-. exists o. split; [exact E | reflexivity].
      * rewrite lookup_insert_ne in Ho' by exact Hne. exists o'. split; [exact Ho' | reflexivity].
    + intros k' o' Ho' Hn. destruct (decide (k = k')) as [<-|Hne].
      * rewrite lookup_insert_eq in Hn. discriminate.
      * rewrite lookup_insert_ne in Hn by exact Hne. congruence.
Qed.

#[local] Hint Resolve preserves_storeStep sleep_store apiApplyStatus_storeStep
  apiPatchFinalizers_storeStep runCap_store : frame.

Lemma patchStatusLoop_storeStep obj st i fuel last :
  preserves storeStep (patchStatusLoop obj st i fuel last).
Proof. revert i last. induction fuel as [|fuel IH]; intros i last; simpl; frame. Qed.

#[local] Hint Resolve patchStatusLoop_storeStep : frame.

Lemma deferStatus_storeStep u e : preserves storeStep (deferStatus u e).
Proof. unfold deferStatus, updateGenericStatus, patchStatus. frame. Qed.

Lemma Reconcile_storeStep c u : preserves storeStep (Reconcile c u).
Proof.
  apply Reconcile_preserves; try typeclasses eauto.
  - apply deferStatus_storeStep.
  - intros b e. unfold updateGenericStatus. frame.
  - intros st. apply patchStatusLoop_storeStep.
  - apply preserves_storeStep, runCap_store.
  - apply preserves_storeStep, runCap_store.
  - intros _ _. unfold patchFinalizer. frame.
  - intros _ _. unfold patchFinalizer. frame.
Qed.

Lemma reconcileByKey_preserves (R : World -> World -> Prop) `{!Reflexive R} `{!Transitive R}
    c key :
  (forall k, preserves R (apiGet k)) -> (forall v, preserves R (Reconcile c v)) ->
  preserves R (reconcileByKey c key).
Proof.
  intros HG HR. unfold reconcileByKey.
  destruct (SplitMetaNamespaceKey key); [| apply preserves_ret; typeclasses eauto].
  apply preserves_bind; [typeclasses eauto .. | apply HG |].
  intros [v|[| | |m]]; try (apply preserves_ret; typeclasses eauto). apply HR.
Qed.

Lemma runKeys_preserves (R : World -> World -> Prop) `{!Reflexive R} `{!Transitive R} c :
  (forall key, preserves R (reconcileByKey c key)) -> forall keys w, R w (runKeys c keys w).
Proof.
  intros H keys. induction keys as [|key rest IH]; intros w; simpl; [reflexivity |].
  transitivity (snd (reconcileByKey c key w)); [apply H | apply IH].
Qed.

(** Over any sequence of passes, under any API faults, the controller never
    creates an object and never changes an object's name, namespace,
    generation, deletion timestamp or spec; an object disappears only if it
    was being deleted; and every object stays stored under its own key. *)
Theorem controller_keeps_objects (c : Controller) (keys : list string) (w : World) :
  let w' := runKeys c keys w in
  (forall k o', store w' !! k = Some o' -> exists o, store w !! k = Some o /\ view o' = view o) /\
  (forall k o, store w !! k = Some o -> store w' !! k = None ->
               IsZero (o_deletionTimestamp o) = false) /\
  (storeWf w -> storeWf w').
Proof.
  assert (H : storeStep w (runKeys c keys w)).
  { apply runKeys_preserves; [typeclasses eauto .. |]. intros key.
    apply reconcileByKey_preserves; [typeclasses eauto .. | | apply Reconcile_storeStep].
    intros k. apply preserves_storeStep, apiGet_store. }
  destruct H as [H1 H2]. split; [exact H1 | split; [exact H2 |]].
  apply storeStep_wf. split; assumption.
Qed.

(** ** main.go: the secrets the ArgoCluster controller touches *)

(** The Argo cluster secret an ArgoCluster object owns. *)
Definition clusterSecretKey (o : Obj) : string * string :=
  (spec_argoNamespace (o_spec o), spec_clusterName (o_spec o) +:+ "-argo-cluster")%string.

Lemma applyArgoCluster_frame loadConfig obj ns s k :
  k <> clusterSecretKey obj -> (applyArgoCluster loadConfig obj ns s).1.2 !! k = s !! k.
Proof.
  intros Hne. unfold applyArgoCluster.
  repeat case_match; simpl; try reflexivity. apply lookup_insert_ne. unfold clusterSecretKey in Hne. congruence.
Qed.

Lemma deleteClusterCleanup_frame obj s k :
  k <> clusterSecretKey obj -> (deleteClusterCleanup obj s).1.2 !! k = s !! k.
Proof.
  intros Hne. unfold deleteClusterCleanup.
  repeat case_match; simpl; try reflexivity. apply lookup_delete_ne. unfold clusterSecretKey in Hne. congruence.
Qed.

Lemma applyArgoCluster_absent loadConfig obj ns s T :
  In T.1 ns -> s !! T = None -> (applyArgoCluster loadConfig obj ns s).1.2 !! T = None.
Proof.
  intros Hin Hs. destruct (in_dec string_dec (spec_argoNamespace (o_spec obj)) ns) as [Hb|Hb].
  - rewrite applyArgoCluster_blocked by exact Hb. exact Hs.
  - rewrite applyArgoCluster_frame; [exact Hs |]. intros ->. exact (Hb Hin).
Qed.

Lemma deleteClusterCleanup_absent obj s T :
  s !! T = None -> (deleteClusterCleanup obj s).1.2 !! T = None.
Proof.
  intros Hs. unfold deleteClusterCleanup. repeat case_match; simpl; [| exact Hs].
  destruct (decide (T = (spec_argoNamespace (o_spec obj),
                         (spec_clusterName (o_spec obj) +:+ "-argo-cluster")%string))) as [->|Hne].
  - apply lookup_delete_eq.
  - rewrite lookup_delete_ne by congruence. exact Hs.
Qed.

(** Secrets whose name does not end in "-argo-cluster" keep their value. *)
Definition keepsOtherSecrets (w w' : World) : Prop :=
  forall k, ~ (exists x, k.2 = (x +:+ "-argo-cluster")%string) -> secrets w' !! k = secrets w !! k.

#[local] Instance keepsOtherSecrets_refl : Reflexive keepsOtherSecrets.
Proof. intros w k _. reflexivity. Qed.
#[local] Instance keepsOtherSecrets_trans : Transitive keepsOtherSecrets.
Proof. intros x y z H1 H2 k Hk. rewrite H2, H1 by exact Hk. reflexivity. Qed.

Lemma preserves_keepsOtherSecrets {A} (m : M A) :
  preserves sameSecrets m -> preserves keepsOtherSecrets m.
Proof. intros H w k _. rewrite (H w). reflexivity. Qed.

Lemma runCap_keepsOtherSecrets (f : Secrets -> option error * Secrets * list RCall) mk obj :
  (forall s k, k <> clusterSecretKey obj -> (f s).1.2 !! k = s !! k) ->
  preserves keepsOtherSecrets (runCap f mk).
Proof.
  intros Hf w k Hk. pose proof (Hf (secrets w) k) as H. unfold runCap.
  destruct (f (secrets w)) as [[r s] calls]. simpl in *. apply H.
  intros ->. apply Hk. eexists. reflexivity.
Qed.

Section ArgoClusterController.
Variable loadConfig : string -> option (string * string).
Variable c : Controller.
Hypothesis Hprov : provisionFunc c = applyArgoCluster loadConfig.
Hypothesis Hclean : cleanupFunc c = deleteClusterCleanup.

Lemma Reconcile_keepsOtherSecrets v : preserves keepsOtherSecrets (Reconcile c v).
Proof.
  apply Reconcile_preserves; try typeclasses eauto.
  - intros e. apply preserves_keepsOtherSecrets, deferStatus_secrets.
  - intros b e. apply preserves_keepsOtherSecrets, updateGenericStatus_secrets.
  - intros st. apply preserves_keepsOtherSecrets, patchStatusLoop_secrets.
  - rewrite Hclean. apply (runCap_keepsOtherSecrets _ _ v). intros s k. apply deleteClusterCleanup_frame.
  - rewrite Hprov. apply (runCap_keepsOtherSecrets _ _ v). intros s k. apply applyArgoCluster_frame.
  - intros _ _. apply preserves_keepsOtherSecrets, patchFinalizer_secrets.
  - intros _ _. apply preserves_keepsOtherSecrets, patchFinalizer_secrets.
Qed.

End ArgoClusterController.

Lemma strlen_app (a b : string) : String.length (a +:+ b) = (String.length a + String.length b)%nat.
Proof. induction a as [|ch a IH]; simpl; [reflexivity | rewrite IH; reflexivity]. Qed.

(** The ArgoCluster controller (provisioning with [applyArgoCluster],
    cleanup with [deleteClusterCleanup]) never creates, changes or deletes
    a secret whose name does not end in "-argo-cluster", over any sequence
    of passes and under any API faults; in particular the clusters'
    kubeconfig secrets it reads are never modified. *)
Theorem argoCluster_keeps_other_secrets (loadConfig : string -> option (string * string))
    (c : Controller) (keys : list string) (w : World)
    (Hprov : provisionFunc c = applyArgoCluster loadConfig)
    (Hclean : cleanupFunc c = deleteClusterCleanup) :
  forall k, ~ (exists x, k.2 = (x +:+ "-argo-cluster")%string) ->
    secrets (runKeys c keys w) !! k = secrets w !! k.
Proof.
  apply (runKeys_preserves keepsOtherSecrets c); intros key.
  apply reconcileByKey_preserves; [typeclasses eauto .. | |].
  - intros k. apply preserves_keepsOtherSecrets, apiGet_secrets.
  - intros v. apply (Reconcile_keepsOtherSecrets loadConfig); assumption.
Qed.

Lemma argoCluster_keeps_other_secrets_witness :
  let w := mkWorld ∅ (<[("ns1", "c1-kubeconfig")%string :=
                        <["value"%string := "a3ViZWNvbmZpZw=="%string]> ∅]> ∅) [] 0 [] in
  ~ (exists x, "c1-kubeconfig"%string = (x +:+ "-argo-cluster")%string) /\
  secrets (runKeys argoClusterController ["ns1/c1"; "ns1/c1"]%string w)
    !! ("ns1", "c1-kubeconfig")%string = secrets w !! ("ns1", "c1-kubeconfig")%string.
Proof.
  intros w.
  assert (Hn : ~ (exists x, "c1-kubeconfig"%string = (x +:+ "-argo-cluster")%string)).
  { intros [x Hx]. destruct x as [|ch x]; [discriminate Hx |].
    apply (f_equal String.length) in Hx. rewrite strlen_app in Hx. simpl in Hx. lia. }
  split; [exact Hn |].
  exact (argoCluster_keeps_other_secrets _ argoClusterController ["ns1/c1"; "ns1/c1"]%string w
           eq_refl eq_refl ("ns1", "c1-kubeconfig")%string Hn).
Defined.

(** ** main.go: where the errors of [Reconcile] come from *)








(** ** main.go: an ArgoCluster whose secret is missing cannot be deleted *)

(** The finalizers stored at key [K] do not change. *)
Definition finAt (K : string * string) (w w' : World) : Prop :=
  o_finalizers <$> store w' !! K = o_finalizers <$> store w !! K.
(** A secret that is absent stays absent. *)
Definition absentAt (T : string * string) (w w' : World) : Prop :=
  secrets w !! T = None -> secrets w' !! T = None.
(** A property of the world that is kept. *)
Definition keepsProp (P : World -> Prop) (w w' : World) : Prop := P w -> P w'.

#[local] Instance finAt_refl K : Reflexive (finAt K).
Proof. intros w. reflexivity. Qed.
#[local] Instance finAt_trans K : Transitive (finAt K).
Proof. intros x y z H1 H2. unfold finAt in *. congruence. Qed.
#[local] Instance absentAt_refl T : Reflexive (absentAt T).
Proof. intros w H. exact H. Qed.
#[local] Instance absentAt_trans T : Transitive (absentAt T).
Proof. intros x y z H1 H2 H. apply H2, H1, H. Qed.
#[local] Instance keepsProp_refl P : Reflexive (keepsProp P).
Proof. intros w H. exact H. Qed.
#[local] Instance keepsProp_trans P : Transitive (keepsProp P).
Proof. intros x y z H1 H2 H. apply H2, H1, H. Qed.

Lemma preserves_finAt K {A} (m : M A) : preserves sameFinalizers m -> preserves (finAt K) m.
Proof. intros H w. apply H. Qed.

Lemma preserves_absentAt T {A} (m : M A) : preserves sameSecrets m -> preserves (absentAt T) m.
Proof. intros H w Hw. rewrite (H w). exact Hw. Qed.

Lemma patchFinalizer_finAt K v F fs :
  objKey v <> K -> preserves (finAt K) (patchFinalizer v F fs).
Proof.
  intros Hne w. unfold patchFinalizer, bind at 1.
  pose proof (apiPatchFinalizers_frame (objKey v) fs w K ltac:(congruence)) as H.
  destruct (apiPatchFinalizers (objKey v) fs w) as [[a|] w1]; simpl in *;
    unfold finAt; rewrite H; reflexivity.
Qed.

(** The stuck ArgoCluster [u]: stored under its key with its view and
    finalizers, while its Argo cluster secret is absent. *)
Definition stuckInv (u : Obj) (w : World) : Prop :=
  storeWf w /\
  (exists u', store w !! objKey u = Some u' /\ view u' = view u /\ o_finalizers u' = o_finalizers u) /\
  secrets w !! clusterSecretKey u = None.

Lemma stuckInv_step u w w' :
  storeStep w w' -> finAt (objKey u) w w' -> absentAt (clusterSecretKey u) w w' ->
  stuckInv u w -> stuckInv u w'.
Proof.
  intros Hs Hf Ha (Hwf & (u' & Hu' & Hv & Hfs) & Hsec).
  split; [exact (storeStep_wf _ _ Hs Hwf) |]. split; [| exact (Ha Hsec)].
  unfold finAt in Hf. rewrite Hu' in Hf. simpl in Hf.
  destruct (store w' !! objKey u) as [u''|] eqn:E; [| discriminate].
  simpl in Hf. injection Hf as Hf.
  destruct Hs as [A _]. destruct (A _ _ E) as [o [Ho Hv']]. rewrite Hu' in Ho. injection Ho as <-.
  exists u''. split; [reflexivity | split; congruence].
Qed.

Section StuckDeletion.
Variable loadConfig : string -> option (string * string).
Variable c : Controller.
Variable u : Obj.
Hypothesis Hprov : provisionFunc c = applyArgoCluster loadConfig.
Hypothesis Hclean : cleanupFunc c = deleteClusterCleanup.
Hypothesis Hdel : IsZero (o_deletionTimestamp u) = false.
Hypothesis Hfin : containsFinalizer u (finalizerName c) = true.
Hypothesis Hden : In (spec_argoNamespace (o_spec u)) (namespaces c).

Lemma Reconcile_finAt_other v : objKey v <> objKey u -> preserves (finAt (objKey u)) (Reconcile c v).
Proof.
  intros Hne. apply Reconcile_preserves; try typeclasses eauto.
  - intros e. apply preserves_finAt, deferStatus_finalizers.
  - intros b e. apply preserves_finAt, updateGenericStatus_finalizers.
  - intros st. apply preserves_finAt, patchStatusLoop_finalizers.
  - apply preserves_finAt. intros w. apply sameStore_finalizers, runCap_store.
  - apply preserves_finAt. intros w. apply sameStore_finalizers, runCap_store.
  - intros _ _. apply patchFinalizer_finAt, Hne.
  - intros _ _. apply patchFinalizer_finAt, Hne.
Qed.

Lemma Reconcile_absentAt v : preserves (absentAt (clusterSecretKey u)) (Reconcile c v).
Proof.
  apply Reconcile_preserves; try typeclasses eauto.
  - intros e. apply preserves_absentAt, deferStatus_secrets.
  - intros b e. apply preserves_absentAt, updateGenericStatus_secrets.
  - intros st. apply preserves_absentAt, patchStatusLoop_secrets.
  - rewrite Hclean. intros w H. unfold runCap.
    pose proof (deleteClusterCleanup_absent v (secrets w) _ H) as Ha.
    destruct (deleteClusterCleanup v (secrets w)) as [[r s] calls]. exact Ha.
  - rewrite Hprov. intros w H. unfold runCap.
    pose proof (applyArgoCluster_absent loadConfig v (namespaces c) (secrets w)
                                          (clusterSecretKey u) Hden H) as Ha.
    destruct (applyArgoCluster loadConfig v (namespaces c) (secrets w)) as [[r s] calls]. exact Ha.
  - intros _ _. apply preserves_absentAt, patchFinalizer_secrets.
  - intros _ _. apply preserves_absentAt, patchFinalizer_secrets.
Qed.

Lemma reconcileByKey_stuck key : preserves (keepsProp (stuckInv u)) (reconcileByKey c key).
Proof.
  intros w Hinv. unfold reconcileByKey.
  destruct (SplitMetaNamespaceKey key) as [k|]; [| exact Hinv].
  unfold bind at 1.
  pose proof (apiGet_store k w) as Hs. pose proof (apiGet_secrets k w) as Hsec.
  destruct (apiGet k w) as [[v|e] w1] eqn:Eg; simpl in Hs, Hsec; unfold sameStore, sameSecrets in *.
  2: { destruct e; simpl;
       (eapply stuckInv_step; [apply sameStore_storeStep, Hs | unfold finAt; rewrite Hs; reflexivity |
                               intros H; rewrite Hsec; exact H | exact Hinv]). }
  assert (Hinv1 : stuckInv u w1).
  { eapply stuckInv_step; [apply sameStore_storeStep, Hs | unfold finAt; rewrite Hs; reflexivity |
                           intros H; rewrite Hsec; exact H | exact Hinv]. }
  pose proof (apiGet_found _ _ _ _ Eg) as Hv.
  destruct Hinv as (Hwf & _). pose proof (Hwf _ _ Hv) as Hkv.
  destruct (decide (objKey v = objKey u)) as [Heq|Hne].
  - pose proof Hinv1 as (Hwf1 & (u' & Hu' & Hvu & Hfu) & Hsec1).
    rewrite Hs, <- Heq, Hkv, Hv in Hu'. injection Hu' as <-.
    assert (Hz : IsZero (o_deletionTimestamp v) = false).
    { unfold view in Hvu. injection Hvu as _ _ _ Hd _. rewrite Hd. exact Hdel. }
    assert (Hf : containsFinalizer v (finalizerName c) = true).
    { unfold containsFinalizer. rewrite Hfu. exact Hfin. }
    assert (Hsp : o_spec v = o_spec u).
    { unfold view in Hvu. injection Hvu as _ _ _ _ Hsp. exact Hsp. }
    unfold Reconcile. cbv zeta. rewrite Hz, Hf. simpl.
    unfold bind at 1, runCap. rewrite Hclean. unfold deleteClusterCleanup. rewrite Hsp.
    unfold clusterSecretKey in Hsec1. rewrite Hsec1. simpl.
    match goal with |- stuckInv u (snd (deferStatus v ?e ?w2)) =>
      assert (Hinv2 : stuckInv u w2) by
        (eapply stuckInv_step; [apply sameStore_storeStep; reflexivity | reflexivity |
                                intros H; exact H | exact Hinv1]);
      pose proof (deferStatus_facts v e w2) as Hd;
      pose proof (deferStatus_storeStep v e w2) as Hst;
      destruct (deferStatus v e w2) as [r w3] end.
    simpl in *. destruct Hd as (_ & Hf3 & Hs3 & _).
    eapply stuckInv_step; [exact Hst | apply Hf3 | intros H; rewrite Hs3; exact H | exact Hinv2].
  - eapply stuckInv_step; [apply Reconcile_storeStep | apply Reconcile_finAt_other, Hne |
                           apply Reconcile_absentAt | exact Hinv1].
Qed.

End StuckDeletion.

(** An ArgoCluster being deleted whose Argo cluster secret is absent, in a
    denylisted Argo namespace (so that no pass can create it), is never
    released by the ArgoCluster controller: [deleteClusterCleanup] fails
    with NotFound on every pass, so over any sequence of passes, under any
    API faults, the object stays stored with its finalizers (the managed
    one included) and its spec.  This is the case of every ArgoCluster
    created with a denylisted Argo namespace: it gets the finalizer but
    never a secret. *)
Theorem argoCluster_deletion_stuck (loadConfig : string -> option (string * string))
    (c : Controller) (u : Obj) (w : World) (keys : list string)
    (Hprov : provisionFunc c = applyArgoCluster loadConfig)
    (Hclean : cleanupFunc c = deleteClusterCleanup)
    (Hdel : IsZero (o_deletionTimestamp u) = false)
    (Hfin : containsFinalizer u (finalizerName c) = true)
    (Hden : In (spec_argoNamespace (o_spec u)) (namespaces c))
    (Hwf : storeWf w) (Hu : store w !! objKey u = Some u)
    (Hsec : secrets w !! clusterSecretKey u = None) :
  exists u', store (runKeys c keys w) !! objKey u = Some u' /\
    view u' = view u /\ o_finalizers u' = o_finalizers u /\
    containsFinalizer u' (finalizerName c) = true.
Proof.
  assert (H : stuckInv u w) by (split; [exact Hwf | split; [exists u; auto | exact Hsec]]).
  pose proof (runKeys_preserves (keepsProp (stuckInv u)) c
                (reconcileByKey_stuck loadConfig c u Hprov Hclean Hdel Hfin Hden) keys w H)
    as (_ & (u' & H1 & H2 & H3) & _).
  exists u'. split; [exact H1 | split; [exact H2 | split; [exact H3 |]]].
  unfold containsFinalizer. rewrite H3. exact Hfin.
Qed.

Lemma argoCluster_deletion_stuck_witness :
  let u := mkObj "c1" "ns1" 1 (Some 5) ["field.vmware.com/argo-attach-cluster-cleanup"%string]
             (mkSpec "c1" "kube-system" "default") None in
  let w := mkWorld (<[objKey u := u]> ∅) ∅ [] 0 [] in
  IsZero (o_deletionTimestamp u) = false /\
  containsFinalizer u (finalizerName argoClusterController) = true /\
  In (spec_argoNamespace (o_spec u)) (namespaces argoClusterController) /\
  storeWf w /\ store w !! objKey u = Some u /\ secrets w !! clusterSecretKey u = None /\
  exists u', store (runKeys argoClusterController ["ns1/c1"; "ns1/c1"; "ns1/c1"]%string w)
               !! objKey u = Some u' /\
    view u' = view u /\ o_finalizers u' = o_finalizers u /\
    containsFinalizer u' (finalizerName argoClusterController) = true.
Proof.
  intros u w.
  assert (Hwf : storeWf w).
  { intros k o Hk. unfold w in Hk. simpl in Hk.
    destruct (decide (k = objKey u)) as [->|Hne].
    - rewrite lookup_insert_eq in Hk. injection Hk as <-. reflexivity.
    - rewrite lookup_insert_ne, lookup_empty in Hk by congruence. discriminate. }
  assert (Hu : store w !! objKey u = Some u) by apply lookup_insert_eq.
  assert (Hden : In (spec_argoNamespace (o_spec u)) (namespaces argoClusterController))
    by (simpl; left; reflexivity).
  split; [reflexivity | split; [reflexivity | split; [exact Hden |]]].
  split; [exact Hwf | split; [exact Hu | split; [reflexivity |]]].
  exact (argoCluster_deletion_stuck _ argoClusterController u w ["ns1/c1"; "ns1/c1"; "ns1/c1"]%string
           eq_refl eq_refl eq_refl eq_refl Hden Hwf Hu eq_refl).
Defined.
